(** * Smart Bin Lite: the route optimisation core of [smart_bin.py]

    A shallow embedding of the graph construction, the critical-bin filter,
    the nearest-neighbour planner, the static route and the route metrics of
    [smart_bin.py], together with the properties its specification states
    about them.

    Conventions of the embedding:
    - node identifiers are [nat] (they come from [range(num_bins)]);
    - fill levels and the threshold are Python ints, [Z];
    - distances are Python floats, i.e. IEEE 754 binary64, [PrimFloat.float];
    - a Python exception is a value of [exn]; a computation that may raise
      returns a [result];
    - Python lists that are mutated live in a [store] and are passed by
      reference; the attribute dictionaries of a networkx graph live in the
      graph's own store, one per undirected edge, shared by both directions;
    - [x ** 2] on floats is CPython's [float_pow], which calls the C
      library's [pow]; the C library is a parameter ([Libm]) of everything
      that computes a distance. *)

From Stdlib Require Import ZArith Floats Lia String.
From stdpp Require Import base option list sorting gmap.

Local Open Scope Z_scope.
Local Open Scope nat_scope.

(** * Python results *)

Inductive exn : Set :=
  | KeyError          (* a failed dict lookup *)
  | ValueError        (* list.remove of an absent item, min of an empty list, math.sqrt of a negative *)
  | IndexError        (* a list index out of range *)
  | OverflowError     (* float ** 2 out of range *)
  | ZeroDivisionError (* float division by zero *)
  | Dangling          (* a reference outside the store: no Python counterpart *)
  | Diverge.          (* loop budget of the model exhausted: no Python counterpart *)

Inductive result (A : Type) : Type :=
  | Ok (a : A)
  | Raise (e : exn).
Arguments Ok {A} a.
Arguments Raise {A} e.

#[global] Instance exn_eq_dec : EqDecision exn.
Proof. solve_decision. Defined.

#[global] Instance result_ret : MRet result := @Ok.
#[global] Instance result_bind : MBind result := fun A B f r =>
  match r with
  | Ok a => f a
  | Raise e => Raise e
  end.
#[global] Instance result_fmap : FMap result := fun A B f r =>
  match r with
  | Ok a => Ok (f a)
  | Raise e => Raise e
  end.

(** [d[k]] on a dict: [KeyError] when the key is absent. *)
Definition getitem {K} `{Countable K} {V} (d : gmap K V) (k : K) : result V :=
  match d !! k with
  | Some v => Ok v
  | None => Raise KeyError
  end.

(** [l[i]] on a list: [IndexError] when out of range. *)
Definition index {A} (l : list A) (i : nat) : result A :=
  match l !! i with
  | Some a => Ok a
  | None => Raise IndexError
  end.

(** * Python floats *)

(** What a call of the C library leaves in [errno]: nothing, [ERANGE], or
    [EDOM] (standing for any other value). *)
Inductive c_errno : Set := ENONE | ERANGE | EDOM.

(** The C library. [libm_pow2 x] is the value of C's [pow (x, 2.0)] together
    with the [errno] it sets. C does not require [pow] to be correctly
    rounded and its result differs between platforms in the last place (it
    need not be the float nearest to the exact square), so it is a parameter
    of the model. *)
Class Libm : Type := { libm_pow2 : float -> float * c_errno }.

(** A C library whose [pow (x, 2.0)] is the correctly rounded square and
    leaves [errno] alone; used for the concrete instances below. *)
Definition exact_libm : Libm :=
  {| libm_pow2 x := (PrimFloat.mul x x, ENONE) |}.

Module PyFloat.

(** [x ** 2]: CPython's [float_pow] at exponent 2. A NaN base is returned
    unchanged, an infinite base gives [+inf], a zero base gives [0.0] and a
    base of absolute value 1 gives [1.0]; otherwise the C library's [pow] is
    called on the absolute value, [errno] is adjusted ([_Py_ADJUST_ERANGE1]:
    an infinite result counts as a range error, a range error with result 0
    does not) and a nonzero [errno] raises [OverflowError] (range) or
    [ValueError] (any other). *)
Definition pow2 {libm : Libm} (x : float) : result float :=
  if PrimFloat.is_nan x then Ok x
  else if PrimFloat.is_infinity x then Ok PrimFloat.infinity
  else if PrimFloat.eqb x PrimFloat.zero then Ok PrimFloat.zero
  else
    let iv := PrimFloat.abs x in
    if PrimFloat.eqb iv PrimFloat.one then Ok PrimFloat.one
    else
      let '(ix, errno) := libm_pow2 iv in
      let errno :=
        match errno with
        | ENONE => if PrimFloat.is_infinity ix then ERANGE else ENONE
        | ERANGE => if PrimFloat.eqb ix PrimFloat.zero then ENONE else ERANGE
        | EDOM => EDOM
        end in
      match errno with
      | ENONE => Ok ix
      | ERANGE => Raise OverflowError
      | EDOM => Raise ValueError
      end.

(** [math.sqrt x]: [ValueError] ("math domain error") on a negative
    argument; NaN and [+inf] are passed through. *)
Definition math_sqrt (x : float) : result float :=
  if PrimFloat.ltb x PrimFloat.zero then Raise ValueError
  else Ok (PrimFloat.sqrt x).

(** [a / b] on floats: [ZeroDivisionError] when [b == 0]. *)
Definition truediv (a b : float) : result float :=
  if PrimFloat.eqb b PrimFloat.zero then Raise ZeroDivisionError
  else Ok (PrimFloat.div a b).

End PyFloat.

(** * The store of mutable lists

    A Python list that is mutated is an object in the store; variables hold
    references to it. Exceptions leave the store as it was when they were
    raised. *)

Abbreviation ref := nat (only parsing).
Abbreviation store := (list (list nat)) (only parsing).
Definition M (A : Type) : Type := store -> result A * store.

#[global] Instance M_ret : MRet M := fun A a h => (Ok a, h).
#[global] Instance M_bind : MBind M := fun A B f m h =>
  match m h with
  | (Ok a, h') => f a h'
  | (Raise e, h') => (Raise e, h')
  end.

Definition raise {A} (e : exn) : M A := fun h => (Raise e, h).
Definition lift {A} (r : result A) : M A := fun h => (r, h).

(** A fresh list object, as made by a list display or by [list.copy]. *)
Definition new_list (l : list nat) : M ref :=
  fun h => (Ok (length h), h ++ [l]).

Definition read (r : ref) : M (list nat) := fun h =>
  match h !! r with
  | Some l => (Ok l, h)
  | None => (Raise Dangling, h)
  end.

Definition write (r : ref) (l : list nat) : M unit :=
  fun h => (Ok tt, <[r := l]> h).

(** [r.copy()] *)
Definition list_copy (r : ref) : M ref :=
  l ← read r; new_list l.

(** [r.append(x)] *)
Definition list_append (r : ref) (x : nat) : M unit :=
  l ← read r; write r (l ++ [x]).

(** The list without the first occurrence of [x], when there is one. *)
Fixpoint remove_first (x : nat) (l : list nat) : option (list nat) :=
  match l with
  | [] => None
  | y :: l' => if decide (y = x) then Some l' else (y ::.) <$> remove_first x l'
  end.

(** [r.remove(x)]: [ValueError] when [x] is not in the list. *)
Definition list_remove (r : ref) (x : nat) : M unit :=
  l ← read r;
  match remove_first x l with
  | Some l' => write r l'
  | None => raise ValueError
  end.

(** The scan of [min(iterable, key=...)]: the key of every item is computed
    once, in order, and an item replaces the current best only when its key is
    strictly smaller ([<]). *)
Fixpoint min_scan (key : nat -> result float) (best : nat) (best_key : float)
    (l : list nat) : result nat :=
  match l with
  | [] => Ok best
  | x :: l' =>
      k ← key x;
      if PrimFloat.ltb k best_key then min_scan key x k l'
      else min_scan key best best_key l'
  end.

(** [min(l, key=key)]: [ValueError] on an empty list. *)
Definition py_min (l : list nat) (key : nat -> result float) : result nat :=
  match l with
  | [] => Raise ValueError
  | x :: l' => k ← key x; min_scan key x k l'
  end.

(** * networkx graphs

    [adj] is the adjacency dict of dicts; its innermost values are references
    into [attrs], the store of edge attribute dicts. The only attribute ever
    set is ['weight'], so an attribute dict is an [option float]. *)

Record Graph : Type := mkGraph {
  adj : gmap nat (gmap nat nat);
  attrs : list (option float)
}.

Definition add_node (u : nat) (g : Graph) : Graph :=
  match adj g !! u with
  | Some _ => g
  | None => mkGraph (<[u := ∅]> (adj g)) (attrs g)
  end.

(** [adj[u].get(v)]: the attribute dict of the edge, when there is one. *)
Definition edge_ref (g : Graph) (u v : nat) : option nat :=
  adj g !! u ≫= (.!! v).

(** [nx.empty_graph(n)]: nodes [0 .. n-1], no edges. *)
Definition empty_graph (n : nat) : Graph :=
  foldl (fun g u => add_node u g) (mkGraph ∅ []) (seq 0 n).

(** [Graph.add_edge(u, v)]: both nodes are added when missing; the attribute
    dict of an existing edge is kept, a new edge gets a fresh empty one; the
    same dict is then stored under [adj[u][v]] and [adj[v][u]]. *)
Definition add_edge (g : Graph) (e : nat * nat) : Graph :=
  let '(u, v) := e in
  let g := add_node v (add_node u g) in
  let '(d, a) :=
    match edge_ref g u v with
    | Some d => (d, attrs g)
    | None => (length (attrs g), attrs g ++ [None])
    end in
  let adj1 := <[u := <[v := d]> (default ∅ (adj g !! u))]> (adj g) in
  let adj2 := <[v := <[u := d]> (default ∅ (adj1 !! v))]> adj1 in
  mkGraph adj2 a.

(** [itertools.combinations(range(n), 2)] *)
Definition combinations (n : nat) : list (nat * nat) :=
  u ← seq 0 n; pair u <$> seq (S u) (n - S u).

(** [nx.complete_graph(n)] *)
Definition complete_graph (n : nat) : Graph :=
  foldl add_edge (empty_graph n) (combinations n).

(** [graph[u][v]]: the attribute dict of the edge, by reference. *)
Definition edge_data (g : Graph) (u v : nat) : result nat :=
  nbrs ← getitem (adj g) u; getitem nbrs v.

(** [graph[u][v]['weight']] *)
Definition weight (g : Graph) (u v : nat) : result float :=
  d ← edge_data g u v;
  match attrs g !! d with
  | Some (Some w) => Ok w
  | Some None => Raise KeyError
  | None => Raise Dangling
  end.

(** [G.edges[u, v]['weight'] = w] *)
Definition set_weight (g : Graph) (u v : nat) (w : float) : result Graph :=
  d ← edge_data g u v;
  Ok (mkGraph (adj g) (<[d := Some w]> (attrs g))).

(** * Phase I: graph modelling (lines 46-50) *)

(** Line 49: [math.sqrt((pos[u][0] - pos[v][0])**2 + (pos[u][1] - pos[v][1])**2)] *)
Definition dist {libm : Libm} (pos : gmap nat (list float)) (u v : nat) : result float :=
  pu ← getitem pos u; xu ← index pu 0;
  pv ← getitem pos v; xv ← index pv 0;
  dx2 ← PyFloat.pow2 (PrimFloat.sub xu xv);
  pu ← getitem pos u; yu ← index pu 1;
  pv ← getitem pos v; yv ← index pv 1;
  dy2 ← PyFloat.pow2 (PrimFloat.sub yu yv);
  PyFloat.math_sqrt (PrimFloat.add dx2 dy2).

(** Lines 47-50, over the edges in the order [G.edges()] yields them. *)
Fixpoint assign_weights {libm : Libm} (pos : gmap nat (list float)) (edges : list (nat * nat))
    (g : Graph) : result Graph :=
  match edges with
  | [] => Ok g
  | (u, v) :: rest =>
      w ← dist pos u v;
      g' ← set_weight g u v w;
      assign_weights pos rest g'
  end.

(** Lines 46-50. On the complete graph [G.edges()] yields the pairs [(u, v)]
    with [u < v], by increasing [u] then [v]: the order of [combinations]. *)
Definition G {libm : Libm} (num_bins : nat) (pos : gmap nat (list float)) : result Graph :=
  assign_weights pos (combinations num_bins) (complete_graph num_bins).

(** * Phase II: fill levels and the critical filter (lines 56-65) *)

(** [d[k] = v] on a dict kept as its items in insertion order. *)
Fixpoint dict_setitem (k : nat) (v : Z) (d : list (nat * Z)) : list (nat * Z) :=
  match d with
  | [] => [(k, v)]
  | (k', v') :: d' =>
      if decide (k' = k) then (k, v) :: d' else (k', v') :: dict_setitem k v d'
  end.

(** [d[k]] on such a dict. *)
Fixpoint dict_get (d : list (nat * Z)) (k : nat) : option Z :=
  match d with
  | [] => None
  | (k', v') :: d' => if decide (k' = k) then Some v' else dict_get d' k
  end.

(** Lines 56-58; [randint i] is the value [random.randint(0, 100)] returns
    in the iteration for node [i]. *)
Definition node_fill_levels (num_bins : nat) (randint : nat -> Z) : list (nat * Z) :=
  foldl (fun d i => dict_setitem i (randint i) d) [(0, 0%Z)] (seq 1 (num_bins - 1)).

(** Lines 62-65. *)
Definition critical_bins (node_fill_levels : list (nat * Z)) (fill_threshold : Z)
    : list nat :=
  foldl (fun critical_bins '(node, fill) =>
           if negb (node =? 0) && (fill_threshold <? fill)%Z
           then critical_bins ++ [node]
           else critical_bins)
        [0] node_fill_levels.

(** * Phase III: routes and metrics (lines 69-109) *)

(** The body of the [for] loop of [calculate_route_distance], over the
    indices that remain. *)
Fixpoint distance_loop (graph : Graph) (route : list nat) (indices : list nat)
    (total_dist : float) : result float :=
  match indices with
  | [] => Ok total_dist
  | i :: rest =>
      u ← index route i;
      v ← index route (i + 1);
      w ← weight graph u v;
      distance_loop graph route rest (PrimFloat.add total_dist w)
  end.

(** Lines 69-75. [total_dist] starts as the int 0, which the first [+=]
    converts to [0.0]; the int 0 returned for a route of fewer than two nodes
    is identified with [0.0]. *)
Definition calculate_route_distance (graph : Graph) (route : list nat) : result float :=
  total_dist ← distance_loop graph route (seq 0 (length route - 1)) PrimFloat.zero;
  Ok (PrimFloat.mul total_dist 100%float).

(** The [while unvisited:] loop of lines 87-92. *)
Fixpoint greedy_loop (fuel : nat) (graph : Graph) (unvisited route : ref)
    (current_node : nat) : M unit :=
  match fuel with
  | 0 => raise Diverge
  | S fuel =>
      l ← read unvisited;
      if bool_decide (l = []) then mret tt
      else
        l ← read unvisited;
        nearest_node ← lift (py_min l (fun x => weight graph current_node x));
        list_append route nearest_node;;
        list_remove unvisited nearest_node;;
        greedy_loop fuel graph unvisited route nearest_node
  end.

(** Lines 77-95. Every iteration removes one item of [unvisited], so the loop
    runs at most [len(unvisited)] times. *)
Definition get_greedy_route (graph : Graph) (nodes_to_visit : ref) : M ref :=
  unvisited ← list_copy nodes_to_visit;
  list_remove unvisited 0;;
  route ← new_list [0];
  l ← read unvisited;
  greedy_loop (S (length l)) graph unvisited route 0;;
  list_append route 0;;
  mret route.

(** Line 98. *)
Definition static_route (num_bins : nat) : list nat := seq 0 num_bins ++ [0].

(** Line 102, run in a store that holds the critical list. *)
Definition dynamic_route (graph : Graph) (critical_bins : list nat) : result (list nat) :=
  let '(r, h) := get_greedy_route graph 0 [critical_bins] in
  route ← r; index h route.

(** Lines 106-109. The int 0 of the [else] branch is identified with [0.0]. *)
Definition efficiency_saving (dist_static dist_dynamic : float) : result float :=
  if PrimFloat.ltb PrimFloat.zero dist_static
  then PyFloat.truediv
         (PrimFloat.mul (PrimFloat.sub dist_static dist_dynamic) 100%float)
         dist_static
  else Ok PrimFloat.zero.

(** Lines 46-109: the distances of both routes and the saving. *)
Definition simulation {libm : Libm} (num_bins : nat) (pos : gmap nat (list float))
    (randint : nat -> Z) (fill_threshold : Z) : result (float * float * float) :=
  g ← G num_bins pos;
  let critical := critical_bins (node_fill_levels num_bins randint) fill_threshold in
  dist_static ← calculate_route_distance g (static_route num_bins);
  route ← dynamic_route g critical;
  dist_dynamic ← calculate_route_distance g route;
  saving ← efficiency_saving dist_static dist_dynamic;
  Ok (dist_static, dist_dynamic, saving).

(** * Dashboard data (lines 126-173) *)

(** Lines 126-133; [G.nodes()] of the complete graph yields
    [0 .. num_bins-1]. *)
Definition node_colors (num_bins : nat) (critical_bins : list nat) : list string :=
  (fun i =>
     if i =? 0 then "blue"%string
     else if bool_decide (i ∈ critical_bins) then "red"%string
     else "green"%string) <$> seq 0 num_bins.

(** Line 139: [list(zip(dynamic_route, dynamic_route[1:]))] *)
Definition path_edges (dynamic_route : list nat) : list (nat * nat) :=
  zip dynamic_route (drop 1 dynamic_route).

(** Line 157: [len(critical_bins)-1] *)
Definition critical_count (critical_bins : list nat) : Z :=
  (Z.of_nat (length critical_bins) - 1)%Z.

(** [d[k]] on a dict kept as its items: [KeyError] when the key is absent. *)
Definition dict_getitem (d : list (nat * Z)) (k : nat) : result Z :=
  match dict_get d k with
  | Some v => Ok v
  | None => Raise KeyError
  end.

(** A row of the status table. *)
Record row : Type := mkRow {
  bin_id : nat;
  fill_level : Z;
  status : string;
  action : string
}.

(** Lines 165-173, over the nodes that remain. *)
Fixpoint status_loop (node_fill_levels : list (nat * Z)) (critical_bins : list nat)
    (dynamic_route : list nat) (nodes : list nat) (status_data : list row)
    : result (list row) :=
  match nodes with
  | [] => Ok status_data
  | node :: rest =>
      let status :=
        if bool_decide (node ∈ critical_bins) && negb (node =? 0)
        then "CRITICAL"%string else "Normal"%string in
      let status := if node =? 0 then "DEPOT"%string else status in
      fill ← dict_getitem node_fill_levels node;
      let action :=
        if bool_decide (node ∈ dynamic_route) then "Collect"%string else "Skip"%string in
      status_loop node_fill_levels critical_bins dynamic_route rest
        (status_data ++ [mkRow node fill status action])
  end.

(** Lines 164-173. *)
Definition status_data (num_bins : nat) (node_fill_levels : list (nat * Z))
    (critical_bins : list nat) (dynamic_route : list nat) : result (list row) :=
  status_loop node_fill_levels critical_bins dynamic_route (seq 0 num_bins) [].

(** ** Floats that are not negative: [x < 0] is false *)

Definition not_negative (x : float) : Prop :=
  PrimFloat.ltb x PrimFloat.zero = false.

Definition sf_not_negative (s : spec_float) : Prop :=
  match s with
  | S754_nan | S754_zero _ => True
  | S754_infinity sx | S754_finite sx _ _ => sx = false
  end.

(** ** Numbers that are not negative: [0 <= x], which excludes NaN *)


(** * Auxiliary definitions for the statements and proofs *)

(** ** The order of binary64 values

    [SFcompare] orders the values that are not NaN like the lexicographic
    order on the triples below. *)

Definition sf_key (s : spec_float) : Z * Z * Z :=
  match s with
  | S754_zero _ => (0, 0, 0)
  | S754_infinity false => (2, 0, 0)
  | S754_infinity true => (-2, 0, 0)
  | S754_nan => (3, 0, 0)
  | S754_finite false m e => (1, e, Z.pos m)
  | S754_finite true m e => (-1, - e, Z.neg m)
  end%Z.

Definition key_lt (k1 k2 : Z * Z * Z) : Prop :=
  let '(a1, b1, c1) := k1 in
  let '(a2, b2, c2) := k2 in
  (a1 < a2 \/ (a1 = a2 /\ (b1 < b2 \/ (b1 = b2 /\ c1 < c2))))%Z.

Definition fkey (x : float) : Z * Z * Z := sf_key (Prim2SF x).

(** ** The visiting order as a function

    What the [while] loop of [get_greedy_route] appends to [route], from the
    contents of [unvisited] and the current node. *)

Fixpoint nearest_order (fuel : nat) (graph : Graph) (current_node : nat)
    (unvisited : list nat) : result (list nat) :=
  match fuel with
  | 0 => Raise Diverge
  | S fuel =>
      if bool_decide (unvisited = []) then Ok []
      else
        nearest_node ← py_min unvisited (fun x => weight graph current_node x);
        match remove_first nearest_node unvisited with
        | Some rest => (nearest_node ::.) <$> nearest_order fuel graph nearest_node rest
        | None => Raise ValueError
        end
  end.

(** ** Distance graphs

    [graph] has a weight for every pair of distinct nodes of [nodes]. *)

Definition complete_on (graph : Graph) (nodes : list nat) : Prop :=
  forall u v, u ∈ nodes -> v ∈ nodes -> u <> v -> exists w, weight graph u v = Ok w.

(** The same, and no weight is NaN. *)
Definition distance_graph_on (graph : Graph) (nodes : list nat) : Prop :=
  forall u v, u ∈ nodes -> v ∈ nodes -> u <> v ->
    exists w, weight graph u v = Ok w /\ PrimFloat.is_nan w = false.

(** ** A small instance: the depot at the centre of the unit square *)

Definition unit_square : gmap nat (list float) :=
  <[0 := [0.5; 0.5]%float]> (<[1 := [0; 0]%float]> (<[2 := [1; 0]%float]>
  (<[3 := [1; 1]%float]> (<[4 := [0; 1]%float]> ∅)))).

(** The graph built for it, with a correctly rounded [pow]. *)
Definition unit_square_graph : Graph :=
  match @G exact_libm 5 unit_square with
  | Ok g => g
  | Raise _ => mkGraph ∅ []
  end.

(** Boolean versions, to check a concrete graph by evaluation. *)
Definition complete_onb (graph : Graph) (nodes : list nat) : bool :=
  forallb (fun u => forallb (fun v =>
    (u =? v) || match weight graph u v with Ok _ => true | Raise _ => false end)
    nodes) nodes.

Definition distance_graph_onb (graph : Graph) (nodes : list nat) : bool :=
  forallb (fun u => forallb (fun v =>
    (u =? v) || match weight graph u v with
                | Ok w => negb (PrimFloat.is_nan w)
                | Raise _ => false
                end)
    nodes) nodes.

(** Fill levels 80, 10 and 99 for the bins 1, 2 and 3 (scenario C of the
    specification), 0 elsewhere. *)
Definition scenario_fills (i : nat) : Z :=
  match i with
  | 1 => 80%Z
  | 2 => 10%Z
  | 3 => 99%Z
  | _ => 0%Z
  end.

(** Four locations on a line: bin 3 is nearer to the depot than bin 1. *)
Definition scenario_C_pos : gmap nat (list float) :=
  <[0 := [0; 0]%float]> (<[1 := [3; 0]%float]> (<[2 := [2; 0]%float]>
  (<[3 := [1; 0]%float]> ∅))).

(** The graph built for them, with a correctly rounded [pow]. *)
Definition scenario_C_graph : Graph :=
  match @G exact_libm 4 scenario_C_pos with
  | Ok g => g
  | Raise _ => mkGraph ∅ []
  end.

(** ** The total distance as the specification words it

    The weights of the consecutive pairs of the route, summed in route order,
    times the display scale factor. *)

Definition display_scale : float := 100%float.

Definition consecutive_pairs (route : list nat) : list (nat * nat) :=
  zip route (tail route).

Fixpoint pair_weights (graph : Graph) (pairs : list (nat * nat)) : result (list float) :=
  match pairs with
  | [] => Ok []
  | (u, v) :: rest =>
      w ← weight graph u v;
      ws ← pair_weights graph rest;
      Ok (w :: ws)
  end.

Definition sum_in_order (ws : list float) : float :=
  foldl PrimFloat.add PrimFloat.zero ws.

Definition total_distance (graph : Graph) (route : list nat) : result float :=
  ws ← pair_weights graph (consecutive_pairs route);
  Ok (PrimFloat.mul (sum_in_order ws) display_scale).

(** ** Well-formed graphs

    [adj[a][b]] and [adj[b][a]] are the same attribute dict, the dict is
    allocated, and two different edges never share one. *)

Definition same_edge (a b u v : nat) : Prop :=
  (a = u /\ b = v) \/ (a = v /\ b = u).

#[global] Instance same_edge_dec a b u v : Decision (same_edge a b u v).
Proof. unfold same_edge. apply _. Defined.

Record wf_graph (g : Graph) : Prop := mk_wf_graph {
  wf_sym : forall a b, edge_ref g a b = edge_ref g b a;
  wf_bound : forall a b d, edge_ref g a b = Some d -> d < length (attrs g);
  wf_inj : forall a b a' b' d,
    edge_ref g a b = Some d -> edge_ref g a' b' = Some d -> same_edge a' b' a b
}.

(** Line 49 raises nothing on the pairs [G] goes through. *)
Definition distances_defined {libm : Libm} (num_bins : nat) (pos : gmap nat (list float)) : Prop :=
  forall u v, u < v -> v < num_bins -> exists w, dist pos u v = Ok w.

Definition distances_definedb {libm : Libm} (num_bins : nat) (pos : gmap nat (list float)) : bool :=
  forallb (fun '(u, v) => match dist pos u v with Ok _ => true | Raise _ => false end)
          (combinations num_bins).

(** Line 49 raises nothing and yields a number on the pairs [G] goes through. *)
Definition distances_are_numbers {libm : Libm} (num_bins : nat) (pos : gmap nat (list float)) : Prop :=
  forall u v, u < v -> v < num_bins ->
    exists w, dist pos u v = Ok w /\ PrimFloat.is_nan w = false.

Definition distances_are_numbersb {libm : Libm} (num_bins : nat) (pos : gmap nat (list float)) : bool :=
  forallb (fun '(u, v) =>
             match dist pos u v with
             | Ok w => negb (PrimFloat.is_nan w)
             | Raise _ => false
             end)
          (combinations num_bins).

(** A location with a NaN coordinate. *)
Definition nan_pos : gmap nat (list float) :=
  <[0 := [PrimFloat.nan; 0%float]]> (<[1 := [0; 0]%float]> ∅).

(** ** The specification's distance graph *)








(** The Euclidean distance of two positions, [sqrt (dx^2 + dy^2)], evaluated
    in binary64: the differences, the sum and the square root are rounded to
    the nearest float and the squares are Python's [** 2]. *)
Definition euclidean_distance {libm : Libm} (p q : float * float) : result float :=
  dx2 ← PyFloat.pow2 (PrimFloat.sub p.1 q.1);
  dy2 ← PyFloat.pow2 (PrimFloat.sub p.2 q.2);
  Ok (PrimFloat.sqrt (PrimFloat.add dx2 dy2)).

(** Two locations with finite coordinates that are far apart. *)
Definition far_apart : gmap nat (list float) :=
  <[0 := [0x1p+600; 0]%float]> (<[1 := [0; 0]%float]> ∅).

(** * Facts about binary64 comparisons *)

Lemma SFcompare_key s1 s2 :
  s1 <> S754_nan -> s2 <> S754_nan ->
  exists c, SFcompare s1 s2 = Some c /\
    (c = Lt <-> key_lt (sf_key s1) (sf_key s2)) /\
    (c = Eq <-> sf_key s1 = sf_key s2) /\
    (c = Gt <-> key_lt (sf_key s2) (sf_key s1)).
Proof.
  intros H1 H2.
  destruct s1 as [[]|[]| |[] m1 e1], s2 as [[]|[]| |[] m2 e2]; try congruence;
    cbn [SFcompare sf_key key_lt];
    try (eexists; split; [reflexivity|];
         repeat split; intros; simplify_eq; try lia; try congruence; fail).
  - eexists; split; [reflexivity|].
    change (Pos.compare_cont Eq m1 m2) with (Pos.compare m1 m2).
    destruct (Z.compare_spec e1 e2), (Pos.compare_spec m1 m2); cbn [CompOpp];
      repeat split; intros; simplify_eq; try lia; try congruence.
  - eexists; split; [reflexivity|].
    change (Pos.compare_cont Eq m1 m2) with (Pos.compare m1 m2).
    destruct (Z.compare_spec e1 e2), (Pos.compare_spec m1 m2); cbn [CompOpp];
      repeat split; intros; simplify_eq; try lia; try congruence.
Qed.

Lemma key_lt_irrefl k : ~ key_lt k k.
Proof. destruct k as [[a b] c]; cbn; lia. Qed.

Lemma key_lt_trans k1 k2 k3 : key_lt k1 k2 -> key_lt k2 k3 -> key_lt k1 k3.
Proof. destruct k1 as [[? ?] ?], k2 as [[? ?] ?], k3 as [[? ?] ?]; cbn; lia. Qed.

Lemma key_lt_nlt_trans k1 k2 k3 : key_lt k1 k2 -> ~ key_lt k3 k2 -> key_lt k1 k3.
Proof. destruct k1 as [[? ?] ?], k2 as [[? ?] ?], k3 as [[? ?] ?]; cbn; lia. Qed.

Lemma key_lt_total k1 k2 : key_lt k1 k2 \/ k1 = k2 \/ key_lt k2 k1.
Proof.
  destruct k1 as [[a1 b1] c1], k2 as [[a2 b2] c2]; cbn.
  destruct (Z.lt_total a1 a2) as [?|[->|?]]; [lia| |lia].
  destruct (Z.lt_total b1 b2) as [?|[->|?]]; [lia| |lia].
  destruct (Z.lt_total c1 c2) as [?|[->|?]]; [lia| |lia].
  right; left; reflexivity.
Qed.

Lemma is_nan_false x : PrimFloat.is_nan x = false <-> Prim2SF x <> S754_nan.
Proof.
  unfold PrimFloat.is_nan. rewrite FloatAxioms.eqb_spec. unfold SFeqb. split.
  - intros H E. rewrite E in H. discriminate.
  - intros H. destruct (SFcompare_key _ _ H H) as (c & Hc & _ & HEq & _).
    rewrite Hc. rewrite (proj2 HEq eq_refl). reflexivity.
Qed.

Lemma is_nan_true x : PrimFloat.is_nan x = true <-> Prim2SF x = S754_nan.
Proof.
  split.
  - intros H. destruct (Prim2SF x) eqn:E; try reflexivity;
      assert (PrimFloat.is_nan x = false) by (apply is_nan_false; congruence);
      congruence.
  - intros H. destruct (PrimFloat.is_nan x) eqn:E; [reflexivity|].
    apply is_nan_false in E. contradiction.
Qed.

Lemma ltb_not_nan x y :
  PrimFloat.ltb x y = true -> PrimFloat.is_nan x = false /\ PrimFloat.is_nan y = false.
Proof.
  rewrite FloatAxioms.ltb_spec, !is_nan_false. unfold SFltb.
  destruct (Prim2SF x), (Prim2SF y); cbn; intros; (discriminate || split; congruence).
Qed.

Lemma eqb_not_nan x y :
  PrimFloat.eqb x y = true -> PrimFloat.is_nan x = false /\ PrimFloat.is_nan y = false.
Proof.
  rewrite FloatAxioms.eqb_spec, !is_nan_false. unfold SFeqb.
  destruct (Prim2SF x), (Prim2SF y); cbn; intros; (discriminate || split; congruence).
Qed.

Lemma ltb_key x y :
  PrimFloat.is_nan x = false -> PrimFloat.is_nan y = false ->
  (PrimFloat.ltb x y = true <-> key_lt (fkey x) (fkey y)).
Proof.
  rewrite !is_nan_false, FloatAxioms.ltb_spec. intros Hx Hy. unfold SFltb, fkey.
  destruct (SFcompare_key _ _ Hx Hy) as (c & Hc & HLt & _ & _). rewrite Hc.
  rewrite <- HLt. destruct c; split; congruence.
Qed.

Lemma eqb_key x y :
  PrimFloat.is_nan x = false -> PrimFloat.is_nan y = false ->
  (PrimFloat.eqb x y = true <-> fkey x = fkey y).
Proof.
  rewrite !is_nan_false, FloatAxioms.eqb_spec. intros Hx Hy. unfold SFeqb, fkey.
  destruct (SFcompare_key _ _ Hx Hy) as (c & Hc & _ & HEq & _). rewrite Hc.
  rewrite <- HEq. destruct c; split; congruence.
Qed.

Lemma leb_key x y :
  PrimFloat.is_nan x = false -> PrimFloat.is_nan y = false ->
  (PrimFloat.leb x y = true <-> ~ key_lt (fkey y) (fkey x)).
Proof.
  rewrite !is_nan_false, FloatAxioms.leb_spec. intros Hx Hy. unfold SFleb, fkey.
  destruct (SFcompare_key _ _ Hx Hy) as (c & Hc & HLt & HEq & HGt). rewrite Hc.
  rewrite <- HGt. destruct c; split; congruence.
Qed.

(** A float that is strictly positive is not equal to zero, and conversely. *)
Lemma ltb_zero_eqb_zero s :
  PrimFloat.ltb PrimFloat.zero s = true -> PrimFloat.eqb s PrimFloat.zero = false.
Proof.
  intros H. destruct (ltb_not_nan _ _ H) as [H0 Hs].
  apply (ltb_key _ _ H0 Hs) in H.
  destruct (PrimFloat.eqb s PrimFloat.zero) eqn:E; [|reflexivity].
  apply (eqb_key _ _ Hs H0) in E. rewrite E in H.
  destruct (key_lt_irrefl _ H).
Qed.

Lemma eqb_zero_ltb_zero s :
  PrimFloat.eqb s PrimFloat.zero = true -> PrimFloat.ltb PrimFloat.zero s = false.
Proof.
  intros H. destruct (PrimFloat.ltb PrimFloat.zero s) eqn:E; [|reflexivity].
  apply ltb_zero_eqb_zero in E. congruence.
Qed.

(** * Facts about lists and the store *)

Lemma fmap_result_Ok {A B} (f : A -> B) (r : result A) b :
  f <$> r = Ok b -> exists a, r = Ok a /\ b = f a.
Proof. destruct r as [a|e]; cbn; intros H; [|discriminate]. exists a. by inversion H. Qed.

Lemma remove_first_split x l1 l2 :
  x ∉ l1 -> remove_first x (l1 ++ x :: l2) = Some (l1 ++ l2).
Proof.
  induction l1 as [|y l1 IH]; cbn; intros Hx.
  - by rewrite decide_True.
  - apply not_elem_of_cons in Hx as [Hxy Hx].
    rewrite decide_False by congruence. by rewrite IH.
Qed.

Lemma remove_first_elem x l :
  x ∈ l -> exists l1 l2, l = l1 ++ x :: l2 /\ (x ∉ l1) /\ remove_first x l = Some (l1 ++ l2).
Proof.
  induction l as [|y l IH]; intros Hx.
  - by apply elem_of_nil in Hx.
  - destruct (decide (y = x)) as [->|Hne].
    + exists [], l. split_and!; [done|apply not_elem_of_nil|]. cbn. by rewrite decide_True.
    + apply elem_of_cons in Hx as [->|Hx]; [done|].
      destruct (IH Hx) as (l1 & l2 & -> & Hl1 & _).
      exists (y :: l1), l2. split_and!; [done| |].
      * apply not_elem_of_cons. split; [congruence|done].
      * apply (remove_first_split x (y :: l1)). apply not_elem_of_cons. split; [congruence|done].
Qed.

Lemma remove_first_None x l : x ∉ l -> remove_first x l = None.
Proof.
  induction l as [|y l IH]; cbn; intros Hx; [done|].
  apply not_elem_of_cons in Hx as [Hxy Hx].
  rewrite decide_False by congruence. by rewrite IH.
Qed.

Lemma read_Some r h l : h !! r = Some l -> read r h = (Ok l, h).
Proof. unfold read. by intros ->. Qed.

Lemma list_append_Some r x h l :
  h !! r = Some l -> list_append r x h = (Ok tt, <[r := l ++ [x]]> h).
Proof. intros H. unfold list_append, mbind, M_bind. by rewrite (read_Some _ _ _ H). Qed.

Lemma list_remove_Some r x h l :
  h !! r = Some l ->
  list_remove r x h =
    match remove_first x l with
    | Some l' => (Ok tt, <[r := l']> h)
    | None => (Raise ValueError, h)
    end.
Proof.
  intros H. unfold list_remove, mbind, M_bind. rewrite (read_Some _ _ _ H).
  by destruct (remove_first x l).
Qed.

(** * The scan of [min] *)

Lemma min_scan_in key best best_key l :
  (forall x, x ∈ l -> exists w, key x = Ok w) ->
  exists n, min_scan key best best_key l = Ok n /\ n ∈ best :: l.
Proof.
  revert best best_key. induction l as [|x l IH]; intros best best_key Hkey; cbn.
  - exists best. split; [done|]. apply list_elem_of_here.
  - destruct (Hkey x) as [w Hw]; [apply list_elem_of_here|]. rewrite Hw. cbn.
    assert (Hl : forall y, y ∈ l -> exists w, key y = Ok w)
      by (intros y Hy; apply Hkey; by apply list_elem_of_further).
    destruct (PrimFloat.ltb w best_key).
    + destruct (IH x w Hl) as (n & Hn & Hin). exists n. split; [done|].
      by apply list_elem_of_further.
    + destruct (IH best best_key Hl) as (n & Hn & Hin). exists n. split; [done|].
      apply elem_of_cons in Hin as [->|Hin]; [apply list_elem_of_here|].
      by do 2 apply list_elem_of_further.
Qed.

Lemma py_min_in key l :
  l <> [] -> (forall x, x ∈ l -> exists w, key x = Ok w) ->
  exists n, py_min l key = Ok n /\ n ∈ l.
Proof.
  destruct l as [|x l]; [done|]. intros _ Hkey. cbn.
  destruct (Hkey x) as [w Hw]; [apply list_elem_of_here|]. rewrite Hw. cbn.
  apply min_scan_in. intros y Hy. apply Hkey. by apply list_elem_of_further.
Qed.

(** * The loop of [get_greedy_route] computes [nearest_order] *)

Lemma greedy_loop_sim fuel : forall g unv rt cur h U R,
  unv <> rt -> h !! unv = Some U -> h !! rt = Some R ->
  exists h',
    greedy_loop fuel g unv rt cur h = ((fun _ => tt) <$> nearest_order fuel g cur U, h') /\
    length h' = length h /\
    (forall r, r <> unv -> r <> rt -> h' !! r = h !! r) /\
    (forall mid, nearest_order fuel g cur U = Ok mid ->
       h' !! rt = Some (R ++ mid) /\ h' !! unv = Some []).
Proof.
  induction fuel as [|fuel IH]; intros g unv rt cur h U R Hne HU HR.
  - exists h. cbn. split_and!; [done|done|done|discriminate].
  - cbn [greedy_loop nearest_order]. unfold mbind at 1, M_bind at 1.
    rewrite (read_Some _ _ _ HU).
    destruct (bool_decide_reflect (U = [])) as [->|HUne].
    + exists h. split_and!; [done|done|done|].
      intros mid [= <-]. by rewrite app_nil_r.
    + unfold mbind at 1, M_bind at 1. rewrite (read_Some _ _ _ HU).
      unfold mbind at 1, M_bind at 1. unfold lift at 1.
      destruct (py_min U (fun x => weight g cur x)) as [n|e] eqn:Hmin; cbn [mbind result_bind].
      2:{ exists h. split_and!; [done|done|done|discriminate]. }
      unfold mbind at 1, M_bind at 1. rewrite (list_append_Some _ _ _ _ HR).
      set (h1 := <[rt := R ++ [n]]> h).
      assert (HU1 : h1 !! unv = Some U)
        by (unfold h1; by rewrite list_lookup_insert_ne).
      assert (HR1 : h1 !! rt = Some (R ++ [n])).
      { unfold h1. apply list_lookup_insert_eq. by eapply lookup_lt_Some. }
      unfold mbind at 1, M_bind at 1. rewrite (list_remove_Some _ _ _ _ HU1).
      destruct (remove_first n U) as [U'|] eqn:Hrem.
      2:{ exists h1. split_and!; [done| | |discriminate].
          - unfold h1. by rewrite length_insert.
          - intros r _ Hr. unfold h1. by rewrite list_lookup_insert_ne. }
      set (h2 := <[unv := U']> h1).
      assert (HU2 : h2 !! unv = Some U').
      { unfold h2. apply list_lookup_insert_eq. by eapply lookup_lt_Some. }
      assert (HR2 : h2 !! rt = Some (R ++ [n]))
        by (unfold h2; by rewrite list_lookup_insert_ne).
      destruct (IH g unv rt n h2 U' (R ++ [n]) Hne HU2 HR2) as (h' & Hrun & Hlen & Hframe & Hres).
      exists h'. split_and!.
      * rewrite Hrun. by destruct (nearest_order fuel g n U').
      * rewrite Hlen. unfold h2, h1. by rewrite !length_insert.
      * intros r Hr1 Hr2. rewrite (Hframe r Hr1 Hr2). unfold h2, h1.
        by rewrite !list_lookup_insert_ne.
      * intros mid Hmid. apply fmap_result_Ok in Hmid as (mid' & Hmid' & ->).
        destruct (Hres mid' Hmid') as [Hrt Hunv]. split; [|done].
        rewrite Hrt. by rewrite <- app_assoc.
Qed.

Lemma get_greedy_route_run g r h L :
  h !! r = Some L ->
  exists res h',
    get_greedy_route g r h = (res, h') /\
    (forall r', r' < length h -> h' !! r' = h !! r') /\
    match remove_first 0 L with
    | None => res = Raise ValueError
    | Some U =>
        match nearest_order (S (length U)) g 0 U with
        | Ok mid => res = Ok (S (length h)) /\ h' !! S (length h) = Some (0 :: mid ++ [0])
        | Raise e => res = Raise e
        end
    end.
Proof.
  intros HL. unfold get_greedy_route, list_copy.
  unfold mbind at 1, M_bind at 1. unfold mbind at 1, M_bind at 1.
  rewrite (read_Some _ _ _ HL). unfold new_list at 1.
  set (h1 := h ++ [L]).
  assert (H1 : h1 !! length h = Some L).
  { unfold h1. rewrite lookup_app_r by lia. by rewrite Nat.sub_diag. }
  assert (Hf1 : forall r', r' < length h -> h1 !! r' = h !! r').
  { intros r' Hr'. unfold h1. by rewrite lookup_app_l. }
  unfold mbind at 1, M_bind at 1. rewrite (list_remove_Some _ _ _ _ H1).
  destruct (remove_first 0 L) as [U|] eqn:Hrem.
  2:{ by exists (Raise ValueError), h1. }
  set (h2 := <[length h := U]> h1).
  assert (Hlen2 : length h2 = S (length h)).
  { unfold h2, h1. rewrite length_insert, length_app. cbn. lia. }
  unfold mbind at 1, M_bind at 1. unfold new_list at 1. rewrite Hlen2.
  set (h3 := h2 ++ [[0]]).
  assert (HU3 : h3 !! length h = Some U).
  { unfold h3. rewrite lookup_app_l by lia. unfold h2.
    apply list_lookup_insert_eq. by eapply lookup_lt_Some. }
  assert (HR3 : h3 !! S (length h) = Some [0]).
  { unfold h3. rewrite lookup_app_r by lia. by rewrite Hlen2, Nat.sub_diag. }
  assert (Hf3 : forall r', r' < length h -> h3 !! r' = h !! r').
  { intros r' Hr'. unfold h3. rewrite lookup_app_l by lia. unfold h2.
    rewrite list_lookup_insert_ne by lia. by apply Hf1. }
  unfold mbind at 1, M_bind at 1. rewrite (read_Some _ _ _ HU3).
  destruct (greedy_loop_sim (S (length U)) g (length h) (S (length h)) 0 h3 U [0])
    as (h4 & Hrun & Hlen4 & Hframe & Hres); [lia|done|done|].
  unfold mbind at 1, M_bind at 1. rewrite Hrun.
  assert (Hf4 : forall r', r' < length h -> h4 !! r' = h !! r').
  { intros r' Hr'. rewrite Hframe by lia. by apply Hf3. }
  destruct (nearest_order (S (length U)) g 0 U) as [mid|e]; cbn [fmap result_fmap].
  2:{ by exists (Raise e), h4. }
  destruct (Hres mid eq_refl) as [Hrt _].
  unfold mbind at 1, M_bind at 1. rewrite (list_append_Some _ _ _ _ Hrt).
  eexists _, _. split; [reflexivity|]. split.
  - intros r' Hr'. rewrite list_lookup_insert_ne by lia. by apply Hf4.
  - split; [done|]. cbn [app]. apply list_lookup_insert_eq.
    by eapply lookup_lt_Some.
Qed.

(** * The visiting order is a permutation of the unvisited nodes *)

Lemma complete_on_weaken g l1 l2 :
  (forall x, x ∈ l2 -> x ∈ l1) -> complete_on g l1 -> complete_on g l2.
Proof. intros Hsub Hc u v Hu Hv. apply Hc; by apply Hsub. Qed.

Lemma nearest_order_perm fuel : forall g cur U,
  length U < fuel -> NoDup (cur :: U) -> complete_on g (cur :: U) ->
  exists mid, nearest_order fuel g cur U = Ok mid /\ mid ≡ₚ U.
Proof.
  induction fuel as [|fuel IH]; intros g cur U Hlen Hnd Hc; [lia|].
  cbn [nearest_order].
  destruct (bool_decide_reflect (U = [])) as [->|HUne]; [by exists []|].
  apply NoDup_cons in Hnd as [Hcur HndU].
  destruct (py_min_in (fun x => weight g cur x) U HUne) as (n & Hmin & Hn).
  { intros x Hx. apply Hc; [apply list_elem_of_here|by apply list_elem_of_further|].
    intros ->. contradiction. }
  rewrite Hmin. cbn [mbind result_bind].
  destruct (remove_first_elem n U Hn) as (l1 & l2 & HU & Hl1 & Hrem).
  rewrite Hrem. subst U.
  assert (Hperm : n :: l1 ++ l2 ≡ₚ l1 ++ n :: l2) by apply Permutation_middle.
  destruct (IH g n (l1 ++ l2)) as (mid & Hmid & Hp).
  - rewrite length_app in *. cbn in Hlen. lia.
  - by rewrite Hperm.
  - eapply complete_on_weaken; [|exact Hc]. intros x Hx.
    apply list_elem_of_further. by rewrite <- Hperm.
  - exists (n :: mid). rewrite Hmid. split; [done|]. by rewrite Hp.
Qed.

(** C1: for a critical list without repetition that contains the depot, and
    a graph with a weight for every pair of its nodes, [get_greedy_route]
    returns a route that starts and ends with 0 and whose interior holds
    exactly the critical nodes other than 0, each once. *)
Theorem get_greedy_route_visits_each_once (graph : Graph) (h : store)
    (nodes_to_visit : ref) (critical : list nat) :
  h !! nodes_to_visit = Some critical ->
  NoDup critical -> 0 ∈ critical -> complete_on graph critical ->
  exists route h' interior,
    get_greedy_route graph nodes_to_visit h = (Ok route, h') /\
    h' !! route = Some (0 :: interior ++ [0]) /\
    NoDup interior /\
    (forall x, x ∈ interior <-> x ∈ critical /\ x <> 0) /\
    interior ≡ₚ filter (fun x => x <> 0) critical.
Proof.
  intros Hh Hnd H0 Hc.
  destruct (get_greedy_route_run graph _ _ _ Hh) as (res & h' & Hrun & _ & Hres).
  destruct (remove_first_elem 0 critical H0) as (l1 & l2 & -> & Hl1 & Hrem).
  rewrite Hrem in Hres.
  assert (Hperm : 0 :: l1 ++ l2 ≡ₚ l1 ++ 0 :: l2) by apply Permutation_middle.
  destruct (nearest_order_perm (S (length (l1 ++ l2))) graph 0 (l1 ++ l2))
    as (mid & Hmid & Hp); [lia|by rewrite Hperm| |].
  { eapply complete_on_weaken; [|exact Hc]. intros x Hx. by rewrite <- Hperm. }
  rewrite Hmid in Hres. destruct Hres as [-> Hroute].
  rewrite <- Hperm in Hnd. apply NoDup_cons in Hnd as [H0' Hnd].
  exists (S (length h)), h', mid. split_and!; [done|done|by rewrite Hp| |].
  - intros x. rewrite Hp, <- Hperm, elem_of_cons. split.
    + intros Hx. split; [by right|]. intros ->. contradiction.
    + intros [[->|Hx] Hx0]; done.
  - rewrite Hp, <- Hperm. rewrite filter_cons_False by (intros ?; done).
    symmetry. clear -H0'. induction (l1 ++ l2) as [|y l IH]; [done|].
    apply not_elem_of_cons in H0' as [Hy H0'].
    rewrite filter_cons_True by done. by rewrite IH at 1.
Qed.

(** C10: [get_greedy_route] works on a copy: whether it returns or raises,
    the list passed as [nodes_to_visit] has afterwards the elements it had
    before, in the same order. *)
Theorem get_greedy_route_preserves_argument (graph : Graph) (h : store)
    (nodes_to_visit : ref) (critical : list nat) :
  h !! nodes_to_visit = Some critical -> 0 ∈ critical ->
  (get_greedy_route graph nodes_to_visit h).2 !! nodes_to_visit = Some critical.
Proof.
  intros Hh _.
  destruct (get_greedy_route_run graph _ _ _ Hh) as (res & h' & Hrun & Hframe & _).
  rewrite Hrun. cbn [snd]. rewrite Hframe; [done|]. by eapply lookup_lt_Some.
Qed.

Lemma complete_onb_sound g nodes : complete_onb g nodes = true -> complete_on g nodes.
Proof.
  unfold complete_onb. rewrite forallb_forall. intros H u v Hu Hv Hne.
  apply list_elem_of_In in Hu, Hv. specialize (H u Hu). rewrite forallb_forall in H.
  specialize (H v Hv). apply orb_true_iff in H as [H|H].
  - apply Nat.eqb_eq in H. contradiction.
  - destruct (weight g u v) as [w|]; [by exists w|discriminate].
Qed.

Lemma distance_graph_onb_sound g nodes :
  distance_graph_onb g nodes = true -> distance_graph_on g nodes.
Proof.
  unfold distance_graph_onb. rewrite forallb_forall. intros H u v Hu Hv Hne.
  apply list_elem_of_In in Hu, Hv. specialize (H u Hu). rewrite forallb_forall in H.
  specialize (H v Hv). apply orb_true_iff in H as [H|H].
  - apply Nat.eqb_eq in H. contradiction.
  - destruct (weight g u v) as [w|]; [|discriminate].
    exists w. split; [done|]. by apply negb_true_iff.
Qed.

Lemma distance_graph_on_complete g nodes : distance_graph_on g nodes -> complete_on g nodes.
Proof. intros H u v Hu Hv Hne. destruct (H u v Hu Hv Hne) as (w & Hw & _). by exists w. Qed.

Lemma get_greedy_route_visits_each_once_witness :
  exists route h' interior,
    get_greedy_route unit_square_graph 0 [[0; 1; 3]] = (Ok route, h') /\
    h' !! route = Some (0 :: interior ++ [0]) /\
    NoDup interior /\
    (forall x, x ∈ interior <-> x ∈ [0; 1; 3] /\ x <> 0) /\
    interior ≡ₚ filter (fun x => x <> 0) [0; 1; 3].
Proof.
  apply (get_greedy_route_visits_each_once unit_square_graph [[0; 1; 3]] 0 [0; 1; 3]).
  - reflexivity.
  - apply (bool_decide_unpack _). vm_compute. reflexivity.
  - apply list_elem_of_here.
  - apply complete_onb_sound. vm_compute. reflexivity.
Defined.

Lemma get_greedy_route_preserves_argument_witness :
  (get_greedy_route unit_square_graph 0 [[0; 1; 3]]).2 !! 0 = Some [0; 1; 3].
Proof.
  apply (get_greedy_route_preserves_argument unit_square_graph [[0; 1; 3]] 0 [0; 1; 3]).
  - reflexivity.
  - apply list_elem_of_here.
Defined.

(** * [min] returns the first item of minimal key *)

Lemma key_lt_asym k1 k2 : key_lt k1 k2 -> ~ key_lt k2 k1.
Proof. intros H1 H2. exact (key_lt_irrefl _ (key_lt_trans _ _ _ H1 H2)). Qed.

Lemma min_scan_first_min key wf best l :
  (forall x, x ∈ best :: l -> key x = Ok (wf x) /\ PrimFloat.is_nan (wf x) = false) ->
  exists n, min_scan key best (wf best) l = Ok n /\
    ((n = best /\ forall y, y ∈ l -> ~ key_lt (fkey (wf y)) (fkey (wf best))) \/
     (exists l1 l2, l = l1 ++ n :: l2 /\
        key_lt (fkey (wf n)) (fkey (wf best)) /\
        (forall y, y ∈ l1 -> key_lt (fkey (wf n)) (fkey (wf y))) /\
        (forall y, y ∈ l2 -> ~ key_lt (fkey (wf y)) (fkey (wf n))))).
Proof.
  revert best. induction l as [|x l IH]; intros best Hkey; cbn [min_scan].
  - exists best. split; [done|]. left. split; [done|]. intros y Hy. by apply elem_of_nil in Hy.
  - destruct (Hkey x) as [Hx Hxn]; [apply list_elem_of_further, list_elem_of_here|].
    destruct (Hkey best) as [_ Hbn]; [apply list_elem_of_here|].
    rewrite Hx. cbn [mbind result_bind].
    destruct (PrimFloat.ltb (wf x) (wf best)) eqn:Hlt.
    + apply (ltb_key _ _ Hxn Hbn) in Hlt.
      destruct (IH x) as (n & Hn & Hcase).
      { intros y Hy. apply Hkey. by apply list_elem_of_further. }
      exists n. split; [done|]. right. destruct Hcase as [[-> Hrest]|(l1 & l2 & -> & Hnx & H1 & H2)].
      * exists [], l. split_and!; [done|done| |done]. intros y Hy. by apply elem_of_nil in Hy.
      * exists (x :: l1), l2. split_and!; [done| | |done].
        -- by eapply key_lt_trans.
        -- intros y [->|Hy]%elem_of_cons; [done|by apply H1].
    + assert (Hnlt : ~ key_lt (fkey (wf x)) (fkey (wf best))).
      { intros Hc. apply (ltb_key _ _ Hxn Hbn) in Hc. congruence. }
      destruct (IH best) as (n & Hn & Hcase).
      { intros y [->|Hy]%elem_of_cons; apply Hkey;
          [apply list_elem_of_here|by do 2 apply list_elem_of_further]. }
      exists n. split; [done|]. destruct Hcase as [[-> Hrest]|(l1 & l2 & -> & Hnb & H1 & H2)].
      * left. split; [done|]. intros y [->|Hy]%elem_of_cons; [done|by apply Hrest].
      * right. exists (x :: l1), l2. split_and!; [done|done| |done].
        intros y [->|Hy]%elem_of_cons; [|by apply H1].
        by eapply key_lt_nlt_trans.
Qed.

Lemma py_min_first_min key wf l :
  l <> [] ->
  (forall x, x ∈ l -> key x = Ok (wf x) /\ PrimFloat.is_nan (wf x) = false) ->
  exists n l1 l2, py_min l key = Ok n /\ l = l1 ++ n :: l2 /\
    (forall y, y ∈ l1 -> key_lt (fkey (wf n)) (fkey (wf y))) /\
    (forall y, y ∈ l2 -> ~ key_lt (fkey (wf y)) (fkey (wf n))).
Proof.
  destruct l as [|x l]; [done|]. intros _ Hkey. cbn [py_min].
  destruct (Hkey x) as [Hx Hxn]; [apply list_elem_of_here|].
  rewrite Hx. cbn [mbind result_bind].
  destruct (min_scan_first_min key wf x l Hkey) as (n & Hn & Hcase).
  destruct Hcase as [[-> Hrest]|(l1 & l2 & -> & Hnx & H1 & H2)].
  - exists x, [], l. split_and!; [done|done| |done]. intros y Hy. by apply elem_of_nil in Hy.
  - exists n, (x :: l1), l2. split_and!; [done|done| |done].
    intros y [->|Hy]%elem_of_cons; [done|by apply H1].
Qed.

(** * Every step of the visiting order goes to a nearest unvisited node *)

Lemma distance_graph_on_weaken g l1 l2 :
  (forall x, x ∈ l2 -> x ∈ l1) -> distance_graph_on g l1 -> distance_graph_on g l2.
Proof. intros Hsub Hc u v Hu Hv. apply Hc; by apply Hsub. Qed.

Lemma nearest_order_greedy fuel : forall g cur U mid,
  StronglySorted lt U -> cur ∉ U -> distance_graph_on g (cur :: U) ->
  nearest_order fuel g cur U = Ok mid ->
  forall i c nxt x,
    (cur :: mid) !! i = Some c -> mid !! i = Some nxt ->
    x ∈ U -> x ∉ take i mid ->
    exists wn wx,
      weight g c nxt = Ok wn /\ weight g c x = Ok wx /\
      PrimFloat.leb wn wx = true /\
      (PrimFloat.eqb wx wn = true -> nxt <= x).
Proof.
  induction fuel as [|fuel IH]; intros g cur U mid Hsort Hcur Hg Hrun; [discriminate|].
  cbn [nearest_order] in Hrun.
  destruct (bool_decide_reflect (U = [])) as [->|HUne].
  { injection Hrun as <-. intros i c nxt x _ Hi. by rewrite lookup_nil in Hi. }
  set (wf := fun x => match weight g cur x with Ok w => w | Raise _ => PrimFloat.zero end).
  assert (Hkey : forall x, x ∈ U ->
            weight g cur x = Ok (wf x) /\ PrimFloat.is_nan (wf x) = false).
  { intros x Hx. destruct (Hg cur x) as (w & Hw & Hnan);
      [apply list_elem_of_here|by apply list_elem_of_further|by intros ->|].
    unfold wf. by rewrite Hw. }
  destruct (py_min_first_min (fun x => weight g cur x) wf U HUne Hkey)
    as (n & l1 & l2 & Hmin & HU & H1 & H2).
  rewrite Hmin in Hrun. cbn [mbind result_bind] in Hrun.
  assert (Hn1 : n ∉ l1) by (intros Hn; exact (key_lt_irrefl _ (H1 n Hn))).
  subst U. rewrite (remove_first_split _ _ _ Hn1) in Hrun.
  apply fmap_result_Ok in Hrun as (mid' & Hrun & ->).
  assert (Hperm : n :: l1 ++ l2 ≡ₚ l1 ++ n :: l2) by apply Permutation_middle.
  assert (Hnl2 : forall y, y ∈ l2 -> n < y).
  { intros y Hy. apply StronglySorted_app_1_r, StronglySorted_cons in Hsort as [Hall _].
    rewrite Forall_forall in Hall. by apply Hall. }
  assert (Hsort' : StronglySorted lt (l1 ++ l2)).
  { apply StronglySorted_app in Hsort as (H12 & Hs1 & Hs2).
    apply StronglySorted_app. split_and!; [|done|by apply StronglySorted_cons in Hs2 as [_ ?]].
    intros x1 x2 Hx1 Hx2. apply H12; [done|by apply list_elem_of_further]. }
  assert (Hnrest : n ∉ l1 ++ l2).
  { intros [Hn|Hn]%elem_of_app; [done|]. specialize (Hnl2 n Hn). lia. }
  intros [|i] c nxt x Hc Hnxt Hx Hvis; cbn in Hc, Hnxt.
  - injection Hc as <-. injection Hnxt as <-.
    destruct (Hkey n) as [Hwn Hnn]; [rewrite <- Hperm; apply list_elem_of_here|].
    destruct (Hkey x Hx) as [Hwx Hxn].
    exists (wf n), (wf x). split_and!; [done|done| |].
    + apply (leb_key _ _ Hnn Hxn).
      apply elem_of_app in Hx as [Hx|[->|Hx]%elem_of_cons].
      * apply key_lt_asym. by apply H1.
      * apply key_lt_irrefl.
      * by apply H2.
    + intros Heq. apply (eqb_key _ _ Hxn Hnn) in Heq.
      apply elem_of_app in Hx as [Hx|[->|Hx]%elem_of_cons].
      * specialize (H1 x Hx). rewrite Heq in H1. destruct (key_lt_irrefl _ H1).
      * lia.
      * specialize (Hnl2 x Hx). lia.
  - cbn [take] in Hvis. apply not_elem_of_cons in Hvis as [Hxn Hvis].
    eapply (IH g n (l1 ++ l2) mid' Hsort' Hnrest); [|done|exact Hc|exact Hnxt| |done].
    + eapply distance_graph_on_weaken; [|exact Hg]. intros y Hy.
      apply list_elem_of_further. by rewrite <- Hperm.
    + rewrite <- Hperm in Hx. by apply elem_of_cons in Hx as [->|Hx].
Qed.

(** * The fill-level dict and the critical filter *)

Lemma dict_setitem_fresh k v d : k ∉ d.*1 -> dict_setitem k v d = d ++ [(k, v)].
Proof.
  induction d as [|[k' v'] d IH]; cbn; intros Hk; [done|].
  apply not_elem_of_cons in Hk as [Hne Hk].
  rewrite decide_False by congruence. by rewrite IH.
Qed.

Lemma node_fill_levels_items num_bins randint :
  node_fill_levels num_bins randint =
    (0, 0%Z) :: ((fun i => (i, randint i)) <$> seq 1 (num_bins - 1)).
Proof.
  unfold node_fill_levels. generalize (num_bins - 1) as m. intros m.
  assert (Hgen : forall a d, (forall k, k ∈ d.*1 -> k < a) ->
            foldl (fun d i => dict_setitem i (randint i) d) d (seq a m) =
            d ++ ((fun i => (i, randint i)) <$> seq a m)).
  { induction m as [|m IH]; intros a d Hd; cbn; [by rewrite app_nil_r|].
    rewrite dict_setitem_fresh.
    - rewrite IH.
      + by rewrite <- app_assoc.
      + intros k. rewrite fmap_app, elem_of_app. cbn. rewrite list_elem_of_singleton.
        intros [Hk| ->]; [apply Hd in Hk|]; lia.
    - intros Ha. apply Hd in Ha. lia. }
  rewrite Hgen; [done|]. intros k. cbn. rewrite list_elem_of_singleton. intros ->. lia.
Qed.

Lemma node_fill_levels_keys num_bins randint :
  (node_fill_levels num_bins randint).*1 = 0 :: seq 1 (num_bins - 1).
Proof.
  rewrite node_fill_levels_items. cbn. f_equal.
  rewrite <- list_fmap_compose. apply list_fmap_id.
Qed.

Lemma critical_bins_acc items T : forall acc,
  foldl (fun critical_bins '(node, fill) =>
           if negb (node =? 0) && (T <? fill)%Z
           then critical_bins ++ [node]
           else critical_bins) acc items =
    acc ++ (filter (fun p : nat * Z => p.1 <> 0 /\ (T < p.2)%Z) items).*1.
Proof.
  induction items as [|[node fill] items IH]; intros acc; cbn [foldl].
  - by rewrite app_nil_r.
  - rewrite IH. destruct (Nat.eqb_spec node 0) as [->|Hne]; cbn [negb andb].
    + rewrite filter_cons_False by (cbn; intros [? _]; done). done.
    + destruct (Z.ltb_spec T fill) as [Hlt|Hge].
      * rewrite filter_cons_True by done. cbn. by rewrite <- app_assoc.
      * rewrite filter_cons_False by (cbn; lia). done.
Qed.

Lemma critical_bins_filter items T :
  critical_bins items T =
    0 :: (filter (fun p : nat * Z => p.1 <> 0 /\ (T < p.2)%Z) items).*1.
Proof. unfold critical_bins. by rewrite critical_bins_acc. Qed.

Lemma dict_get_elem items i fill :
  NoDup items.*1 -> (dict_get items i = Some fill <-> (i, fill) ∈ items).
Proof.
  induction items as [|[k v] items IH]; cbn; intros Hnd.
  - split; [done|]. intros H. by apply elem_of_nil in H.
  - apply NoDup_cons in Hnd as [Hk Hnd]. rewrite elem_of_cons.
    destruct (decide (k = i)) as [->|Hne].
    + split; [intros [= ->]; by left|].
      intros [[= ->]|Hin]; [done|].
      destruct Hk. apply list_elem_of_fmap. by exists (i, fill).
    + rewrite (IH Hnd). split; [by right|]. intros [[= -> ->]|Hin]; done.
Qed.

(** C2: the critical filter keeps the depot and exactly the other nodes whose
    fill level is strictly above the threshold. *)
Theorem critical_bins_spec (node_fill_levels : list (nat * Z)) (fill_threshold : Z) :
  NoDup node_fill_levels.*1 ->
  0 ∈ critical_bins node_fill_levels fill_threshold /\
  (forall i, i <> 0 ->
     (i ∈ critical_bins node_fill_levels fill_threshold <->
      exists fill, dict_get node_fill_levels i = Some fill /\ (fill > fill_threshold)%Z)) /\
  (forall i, i <> 0 -> dict_get node_fill_levels i = Some fill_threshold ->
     i ∉ critical_bins node_fill_levels fill_threshold) /\
  NoDup (critical_bins node_fill_levels fill_threshold).
Proof.
  intros Hnd. rewrite critical_bins_filter.
  assert (Hmem : forall i, i <> 0 ->
    i ∈ (filter (fun p : nat * Z => p.1 <> 0 /\ (fill_threshold < p.2)%Z) node_fill_levels).*1 <->
    exists fill, dict_get node_fill_levels i = Some fill /\ (fill > fill_threshold)%Z).
  { intros i Hi. rewrite list_elem_of_fmap. split.
    - intros ([k v] & -> & Hin). apply list_elem_of_filter in Hin as [[_ Hlt] Hin].
      exists v. split; [by apply dict_get_elem|]. cbn in Hlt. lia.
    - intros (fill & Hget & Hgt). exists (i, fill). split; [done|].
      apply list_elem_of_filter. split; [cbn; lia|by apply dict_get_elem]. }
  split_and!.
  - apply list_elem_of_here.
  - intros i Hi. rewrite elem_of_cons. rewrite <- (Hmem i Hi).
    split; [intros [?|?]; done|intros ?; by right].
  - intros i Hi Hget [?|Hin]%elem_of_cons; [done|].
    apply (Hmem i Hi) in Hin as (fill & Hget' & Hgt). rewrite Hget in Hget'.
    injection Hget' as <-. lia.
  - apply NoDup_cons. split.
    + intros ([k v] & Hk & Hin)%list_elem_of_fmap.
      apply list_elem_of_filter in Hin as [[Hne _] _]. cbn in *. congruence.
    + clear Hmem. induction node_fill_levels as [|[k v] items IH]; [constructor|].
      cbn in Hnd. apply NoDup_cons in Hnd as [Hk Hnd].
      destruct (decide (k <> 0 /\ (fill_threshold < v)%Z)) as [HP|HP].
      * rewrite filter_cons_True by done. cbn. apply NoDup_cons. split; [|by apply IH].
        intros ([k' v'] & Hk' & Hin)%list_elem_of_fmap. cbn in Hk'. subst k'.
        apply list_elem_of_filter in Hin as [_ Hin]. apply Hk.
        apply list_elem_of_fmap. by exists (k, v').
      * rewrite filter_cons_False by done. by apply IH.
Qed.

Lemma critical_bins_spec_witness :
  0 ∈ critical_bins [(0, 0%Z); (1, 50%Z); (2, 90%Z); (3, 75%Z)] 75 /\
  (forall i, i <> 0 ->
     (i ∈ critical_bins [(0, 0%Z); (1, 50%Z); (2, 90%Z); (3, 75%Z)] 75 <->
      exists fill, dict_get [(0, 0%Z); (1, 50%Z); (2, 90%Z); (3, 75%Z)] i = Some fill /\
                   (fill > 75)%Z)) /\
  (forall i, i <> 0 -> dict_get [(0, 0%Z); (1, 50%Z); (2, 90%Z); (3, 75%Z)] i = Some 75%Z ->
     i ∉ critical_bins [(0, 0%Z); (1, 50%Z); (2, 90%Z); (3, 75%Z)] 75) /\
  NoDup (critical_bins [(0, 0%Z); (1, 50%Z); (2, 90%Z); (3, 75%Z)] 75).
Proof.
  apply (critical_bins_spec [(0, 0%Z); (1, 50%Z); (2, 90%Z); (3, 75%Z)] 75).
  apply (bool_decide_unpack _). vm_compute. reflexivity.
Defined.

(** Scenario B of the specification. *)
Example critical_bins_scenario_B :
  critical_bins [(0, 0%Z); (1, 50%Z); (2, 90%Z)] 75 = [0; 2].
Proof. reflexivity. Qed.

Lemma critical_bins_sorted items T :
  StronglySorted lt items.*1 -> StronglySorted lt (critical_bins items T).
Proof.
  intros Hs. rewrite critical_bins_filter. apply StronglySorted_cons.
  assert (Hsub : StronglySorted lt
    (filter (fun p : nat * Z => p.1 <> 0 /\ (T < p.2)%Z) items).*1).
  { induction items as [|[k v] items IH]; [constructor|].
    cbn in Hs. apply StronglySorted_cons in Hs as [Hall Hs].
    destruct (decide (k <> 0 /\ (T < v)%Z)) as [HP|HP].
    - rewrite filter_cons_True by done. cbn. apply StronglySorted_cons. split; [|by apply IH].
      rewrite Forall_forall in *. intros x ([k' v'] & -> & Hin)%list_elem_of_fmap.
      apply list_elem_of_filter in Hin as [_ Hin]. apply Hall.
      apply list_elem_of_fmap. by exists (k', v').
    - rewrite filter_cons_False by done. by apply IH. }
  split; [|done]. rewrite Forall_forall.
  intros x ([k v] & -> & Hin)%list_elem_of_fmap.
  apply list_elem_of_filter in Hin as [[Hne _] _]. cbn in *. lia.
Qed.

Lemma seq_sorted a m : StronglySorted lt (seq a m).
Proof.
  revert a. induction m as [|m IH]; intros a; cbn; [constructor|].
  apply StronglySorted_cons. split; [|apply IH].
  rewrite Forall_forall. intros x Hx%elem_of_seq. lia.
Qed.

Lemma critical_bins_pipeline_sorted num_bins randint T :
  StronglySorted lt (critical_bins (node_fill_levels num_bins randint) T).
Proof.
  apply critical_bins_sorted. rewrite node_fill_levels_keys.
  apply StronglySorted_cons. split; [|apply seq_sorted].
  rewrite Forall_forall. intros x Hx%elem_of_seq. lia.
Qed.

Lemma filter_nonzero_id (l : list nat) :
  0 ∉ l -> filter (fun x => x <> 0) l = l.
Proof.
  induction l as [|a l IH]; [done|]. intros [Ha Hl]%not_elem_of_cons.
  rewrite filter_cons_True by done. by rewrite IH.
Qed.

(** C5: on the critical list the filter builds, the planner returns a route
    [0 :: interior ++ [0]] whose interior is a permutation of the critical
    nodes other than the depot, so a step is taken as long as an unvisited
    critical node remains. Every step goes from the current node to an
    unvisited critical node of minimal weight, and among the unvisited nodes
    at that same weight to the one with the lowest identifier. The unvisited
    nodes at step [i] are the critical nodes outside the first [i + 1]
    entries of the route. *)
Theorem get_greedy_route_nearest_lowest_id (num_bins : nat) (randint : nat -> Z)
    (fill_threshold : Z) (graph : Graph) (h : store) (nodes_to_visit : ref) :
  let critical := critical_bins (node_fill_levels num_bins randint) fill_threshold in
  h !! nodes_to_visit = Some critical ->
  distance_graph_on graph critical ->
  exists r h' route,
    get_greedy_route graph nodes_to_visit h = (Ok r, h') /\
    h' !! r = Some route /\
    (exists interior,
       route = 0 :: interior ++ [0] /\
       interior ≡ₚ filter (fun x => x <> 0) critical) /\
    (forall i x, x ∈ critical -> x ∉ take (S i) route -> S (S i) < length route) /\
    forall i cur nxt,
      route !! i = Some cur -> route !! S i = Some nxt -> S (S i) < length route ->
      (nxt ∈ critical /\ nxt ∉ take (S i) route) /\
      forall x, x ∈ critical -> x ∉ take (S i) route ->
        exists wn wx,
          weight graph cur nxt = Ok wn /\ weight graph cur x = Ok wx /\
          PrimFloat.leb wn wx = true /\
          (PrimFloat.eqb wx wn = true -> nxt <= x).
Proof.
  intros critical Hh Hg.
  pose proof (critical_bins_pipeline_sorted num_bins randint fill_threshold) as Hsort.
  fold critical in Hsort.
  assert (Hcrit : exists rest, critical = 0 :: rest)
    by (unfold critical; rewrite critical_bins_filter; eauto).
  destruct Hcrit as [rest Hcrit]. rewrite Hcrit in *. clearbody critical. subst critical.
  apply StronglySorted_cons in Hsort as [Hall Hsort]. rewrite Forall_forall in Hall.
  assert (H0 : 0 ∉ rest) by (intros H0; specialize (Hall 0 H0); lia).
  assert (Hnd : NoDup (0 :: rest)).
  { apply NoDup_cons. split; [done|]. clear -Hsort.
    induction Hsort as [|x l Hs IH Hx]; [constructor|]. apply NoDup_cons. split; [|done].
    rewrite Forall_forall in Hx. intros Hin. specialize (Hx x Hin). lia. }
  destruct (get_greedy_route_run graph _ _ _ Hh) as (res & h' & Hrun & _ & Hres).
  cbn [remove_first] in Hres. rewrite decide_True in Hres by done.
  destruct (nearest_order_perm (S (length rest)) graph 0 rest)
    as (mid & Hmid & Hp); [lia|done|by apply distance_graph_on_complete|].
  rewrite Hmid in Hres. destruct Hres as [-> Hroute].
  exists (S (length h)), h', (0 :: mid ++ [0]). split_and!; [done|done|..].
  { exists mid. split; [done|]. rewrite filter_cons_False by (intros ?; done).
    by rewrite filter_nonzero_id. }
  { intros i x Hx Hvis. cbn [length]. rewrite length_app. cbn [length].
    destruct (decide (i < length mid)) as [?|Hge]; [lia|]. exfalso. apply Hvis.
    change (0 :: mid ++ [0]) with ((0 :: mid) ++ [0]).
    rewrite take_app_ge by (cbn; lia). apply elem_of_app. left.
    apply elem_of_cons in Hx as [->|Hx]; [apply list_elem_of_here|].
    apply list_elem_of_further. by rewrite Hp. }
  intros i cur nxt Hcur Hnxt Hlen.
  cbn [length] in Hlen. rewrite length_app in Hlen. cbn in Hlen.
  assert (Hi : i < length mid) by lia.
  change (0 :: mid ++ [0]) with ((0 :: mid) ++ [0]) in Hcur.
  rewrite lookup_app_l in Hcur by (cbn; lia).
  change ((mid ++ [0]) !! i = Some nxt) in Hnxt. rewrite lookup_app_l in Hnxt by done.
  cbn [take]. rewrite take_app_le by lia.
  assert (Hndm : NoDup mid) by (rewrite Hp; by apply NoDup_cons in Hnd as [_ ?]).
  split.
  - split.
    + apply list_elem_of_further. rewrite <- Hp. by eapply list_elem_of_lookup_2.
    + apply not_elem_of_cons. split.
      * intros ->. apply H0. rewrite <- Hp. by eapply list_elem_of_lookup_2.
      * intros Hin. apply list_elem_of_lookup in Hin as (j & Hj).
        apply lookup_take_Some in Hj as [Hj Hji].
        pose proof (NoDup_lookup _ _ _ _ Hndm Hj Hnxt). lia.
  - intros x Hx Hvis. apply not_elem_of_cons in Hvis as [Hx0 Hvis].
    apply elem_of_cons in Hx as [->|Hx]; [done|].
    by eapply (nearest_order_greedy _ graph 0 rest mid Hsort H0 Hg Hmid).
Qed.

Lemma get_greedy_route_nearest_lowest_id_witness :
  let critical := critical_bins (node_fill_levels 5 scenario_fills) 75 in
  exists r h' route,
    get_greedy_route unit_square_graph 0 [critical] = (Ok r, h') /\
    h' !! r = Some route /\
    (exists interior,
       route = 0 :: interior ++ [0] /\
       interior ≡ₚ filter (fun x => x <> 0) critical) /\
    (forall i x, x ∈ critical -> x ∉ take (S i) route -> S (S i) < length route) /\
    forall i cur nxt,
      route !! i = Some cur -> route !! S i = Some nxt -> S (S i) < length route ->
      (nxt ∈ critical /\ nxt ∉ take (S i) route) /\
      forall x, x ∈ critical -> x ∉ take (S i) route ->
        exists wn wx,
          weight unit_square_graph cur nxt = Ok wn /\
          weight unit_square_graph cur x = Ok wx /\
          PrimFloat.leb wn wx = true /\
          (PrimFloat.eqb wx wn = true -> nxt <= x).
Proof.
  apply (get_greedy_route_nearest_lowest_id 5 scenario_fills 75 unit_square_graph
           [critical_bins (node_fill_levels 5 scenario_fills) 75] 0).
  - reflexivity.
  - apply distance_graph_onb_sound. vm_compute. reflexivity.
Defined.

(** Scenario C of the specification: bin 3 is visited before bin 1. *)
Example dynamic_route_scenario_C :
  critical_bins (node_fill_levels 4 scenario_fills) 75 = [0; 1; 3] /\
  dynamic_route scenario_C_graph [0; 1; 3] = Ok [0; 3; 1; 0].
Proof. split; vm_compute; reflexivity. Qed.

(** Bins 1 and 3 of the unit square are at the same distance from the depot:
    the planner goes to bin 1 first. *)
Example dynamic_route_tie :
  weight unit_square_graph 0 1 = weight unit_square_graph 0 3 /\
  dynamic_route unit_square_graph [0; 1; 3] = Ok [0; 1; 3; 0].
Proof. split; vm_compute; reflexivity. Qed.

(** The tie is decided by the position in the list: on a list that is not in
    increasing order, which the critical filter never builds, the first of
    the nearest nodes is taken. *)
Example dynamic_route_tie_list_order :
  dynamic_route unit_square_graph [0; 3; 1] = Ok [0; 3; 1; 0].
Proof. vm_compute. reflexivity. Qed.

(** Scenario B of the specification. *)
Example dynamic_route_scenario_B :
  dynamic_route unit_square_graph [0; 2] = Ok [0; 2; 0].
Proof. vm_compute. reflexivity. Qed.

(** * Metrics *)

(** C4: the saving is [((static - dynamic) * 100) / static] when the static
    distance is positive and 0 when it is zero; it never raises, in particular
    not [ZeroDivisionError]; 1000 and 400 give 60.0. *)
Theorem efficiency_saving_spec (dist_static dist_dynamic : float) :
  (PrimFloat.ltb PrimFloat.zero dist_static = true ->
     efficiency_saving dist_static dist_dynamic =
       Ok (PrimFloat.div
             (PrimFloat.mul (PrimFloat.sub dist_static dist_dynamic) 100%float)
             dist_static)) /\
  (PrimFloat.eqb dist_static PrimFloat.zero = true ->
     efficiency_saving dist_static dist_dynamic = Ok PrimFloat.zero) /\
  (exists saving, efficiency_saving dist_static dist_dynamic = Ok saving) /\
  efficiency_saving 1000%float 400%float = Ok 60%float.
Proof.
  unfold efficiency_saving, PyFloat.truediv. split_and!.
  - intros H. rewrite H. by rewrite (ltb_zero_eqb_zero _ H).
  - intros H. by rewrite (eqb_zero_ltb_zero _ H).
  - destruct (PrimFloat.ltb PrimFloat.zero dist_static) eqn:H; [|by eexists].
    rewrite (ltb_zero_eqb_zero _ H). by eexists.
  - reflexivity.
Qed.

Example efficiency_saving_zero_static :
  efficiency_saving 0%float 400%float = Ok 0%float /\
  efficiency_saving (-0)%float 400%float = Ok 0%float.
Proof. split; reflexivity. Qed.

(** C6: the static route is [0, 1, ..., n-1, 0]; it is a function of the
    number of bins alone. *)
Theorem static_route_spec (num_bins : nat) :
  length (static_route num_bins) = S num_bins /\
  (forall i, i < num_bins -> static_route num_bins !! i = Some i) /\
  static_route num_bins !! num_bins = Some 0.
Proof.
  unfold static_route. split_and!.
  - rewrite length_app, length_seq. cbn. lia.
  - intros i Hi. rewrite lookup_app_l by (rewrite length_seq; lia).
    by rewrite lookup_seq_lt.
  - rewrite lookup_app_r by (rewrite length_seq; lia).
    by rewrite length_seq, Nat.sub_diag.
Qed.

Example static_route_5 : static_route 5 = [0; 1; 2; 3; 4; 0].
Proof. reflexivity. Qed.

Lemma distance_loop_pairs g : forall suf pre acc,
  distance_loop g (pre ++ suf) (seq (length pre) (length suf - 1)) acc =
    ws ← pair_weights g (consecutive_pairs suf); Ok (foldl PrimFloat.add acc ws).
Proof.
  induction suf as [|a suf IH]; intros pre acc; [done|].
  destruct suf as [|b suf]; [done|].
  replace (length (a :: b :: suf) - 1) with (S (length (b :: suf) - 1)) by (cbn; lia).
  change (consecutive_pairs (a :: b :: suf)) with ((a, b) :: consecutive_pairs (b :: suf)).
  cbn [seq distance_loop pair_weights].
  assert (Ha : (pre ++ a :: b :: suf) !! length pre = Some a)
    by by apply list_lookup_middle.
  assert (Hb : (pre ++ a :: b :: suf) !! (length pre + 1) = Some b).
  { change (a :: b :: suf) with ([a] ++ b :: suf).
    rewrite (assoc_L (++) pre [a] (b :: suf)). apply list_lookup_middle.
    rewrite length_app. cbn. lia. }
  unfold index. rewrite Ha, Hb. cbn [mbind result_bind].
  destruct (weight g a b) as [w|e]; cbn [mbind result_bind]; [|done].
  specialize (IH (pre ++ [a]) (PrimFloat.add acc w)).
  rewrite <- app_assoc, length_app in IH.
  change ([a] ++ b :: suf) with (a :: b :: suf) in IH. change (length [a]) with 1 in IH.
  replace (length pre + 1) with (S (length pre)) in IH by lia.
  rewrite IH. by destruct (pair_weights g (consecutive_pairs (b :: suf))).
Qed.

(** C7: the distance of a route is the sum of the weights of its consecutive
    pairs, times the display scale factor 100; a pair without a weight in the
    graph makes both fail alike. *)
Theorem calculate_route_distance_spec (graph : Graph) (route : list nat) :
  display_scale = 100%float /\
  calculate_route_distance graph route = total_distance graph route /\
  (forall ws, pair_weights graph (consecutive_pairs route) = Ok ws ->
     calculate_route_distance graph route =
       Ok (PrimFloat.mul (sum_in_order ws) 100%float)).
Proof.
  assert (Heq : calculate_route_distance graph route = total_distance graph route).
  { unfold calculate_route_distance, total_distance, sum_in_order.
    pose proof (distance_loop_pairs graph route [] PrimFloat.zero) as Hloop.
    cbn [app length] in Hloop. rewrite Hloop.
    by destruct (pair_weights graph (consecutive_pairs route)). }
  split_and!; [done|done|].
  intros ws Hws. rewrite Heq. unfold total_distance. by rewrite Hws.
Qed.

Example calculate_route_distance_square :
  calculate_route_distance unit_square_graph [0; 1; 2; 0] =
    Ok (PrimFloat.mul
          (PrimFloat.add (PrimFloat.add
             (PrimFloat.add 0 0x1.6a09e667f3bcdp-1) 1) 0x1.6a09e667f3bcdp-1)
          100)%float.
Proof. vm_compute. reflexivity. Qed.

(** * The complete graph *)

Lemma same_edge_sym a b u v : same_edge a b u v -> same_edge b a u v.
Proof. unfold same_edge. lia. Qed.

Lemma edge_data_ref g u v :
  edge_data g u v = match edge_ref g u v with Some d => Ok d | None => Raise KeyError end.
Proof.
  unfold edge_data, edge_ref, getitem.
  destruct (adj g !! u) as [nbrs|]; cbn; [|done]. by destruct (nbrs !! v).
Qed.

Lemma edge_ref_add_node u g a b : edge_ref (add_node u g) a b = edge_ref g a b.
Proof.
  unfold add_node, edge_ref. destruct (adj g !! u) eqn:Hu; [done|]. cbn.
  destruct (decide (a = u)) as [->|Hne].
  - rewrite lookup_insert_eq, Hu. cbn. apply lookup_empty.
  - by rewrite lookup_insert_ne.
Qed.

Lemma attrs_add_node u g : attrs (add_node u g) = attrs g.
Proof. unfold add_node. by destruct (adj g !! u). Qed.

Lemma edge_ref_add_edge g u v a b :
  edge_ref (add_edge g (u, v)) a b =
    if decide (same_edge a b u v)
    then Some (default (length (attrs g)) (edge_ref g u v))
    else edge_ref g a b.
Proof.
  unfold add_edge.
  set (g' := add_node v (add_node u g)).
  assert (Href : forall x y, edge_ref g' x y = edge_ref g x y)
    by (intros x y; unfold g'; by rewrite !edge_ref_add_node).
  assert (Hattrs : attrs g' = attrs g)
    by (unfold g'; by rewrite !attrs_add_node).
  rewrite <- Hattrs, <- (Href u v), <- (Href a b).
  set (d := default (length (attrs g')) (edge_ref g' u v)).
  assert (Hgoal : forall a0,
    edge_ref (mkGraph
      (<[v := <[u := d]> (default ∅ ((<[u := <[v := d]> (default ∅ (adj g' !! u))]> (adj g')) !! v))]>
         (<[u := <[v := d]> (default ∅ (adj g' !! u))]> (adj g'))) a0) a b =
    if decide (same_edge a b u v) then Some d else edge_ref g' a b).
  { intros a0. unfold edge_ref at 1. cbn [adj]. unfold same_edge.
    destruct (decide (a = v)) as [->|Hav].
    - rewrite lookup_insert_eq. cbn.
      destruct (decide (b = u)) as [->|Hbu].
      + rewrite lookup_insert_eq. by rewrite decide_True by lia.
      + rewrite lookup_insert_ne by done.
        destruct (decide (v = u)) as [->|Hvu].
        * rewrite lookup_insert_eq. cbn. rewrite lookup_insert_ne by done.
          rewrite decide_False by lia. unfold edge_ref.
          by destruct (adj g' !! u).
        * rewrite lookup_insert_ne by done.
          rewrite decide_False by lia. unfold edge_ref.
          by destruct (adj g' !! v).
    - rewrite lookup_insert_ne by done.
      destruct (decide (a = u)) as [->|Hau].
      + rewrite lookup_insert_eq. cbn.
        destruct (decide (b = v)) as [->|Hbv].
        * rewrite lookup_insert_eq. by rewrite decide_True by lia.
        * rewrite lookup_insert_ne by done. rewrite decide_False by lia.
          unfold edge_ref. by destruct (adj g' !! u).
      + rewrite lookup_insert_ne by done. by rewrite decide_False by lia. }
  unfold d in *. clear d. destruct (edge_ref g' u v) as [d|]; cbn [default] in *; apply Hgoal.
Qed.

Lemma attrs_add_edge g u v :
  attrs (add_edge g (u, v)) =
    match edge_ref g u v with
    | Some _ => attrs g
    | None => attrs g ++ [None]
    end.
Proof.
  unfold add_edge. rewrite !edge_ref_add_node, !attrs_add_node.
  by destruct (edge_ref g u v).
Qed.

Lemma wf_graph_add_edge g u v : wf_graph g -> wf_graph (add_edge g (u, v)).
Proof.
  intros [Hsym Hbound Hinj].
  assert (Hlen : length (attrs g) <= length (attrs (add_edge g (u, v)))).
  { rewrite attrs_add_edge. destruct (edge_ref g u v); [done|]. rewrite length_app. lia. }
  assert (Hd : default (length (attrs g)) (edge_ref g u v)
               < length (attrs (add_edge g (u, v)))).
  { rewrite attrs_add_edge. destruct (edge_ref g u v) as [d|] eqn:Huv; cbn.
    - by eapply Hbound.
    - rewrite length_app. cbn. lia. }
  split.
  - intros a b. rewrite !edge_ref_add_edge.
    destruct (decide (same_edge a b u v)) as [H|H],
             (decide (same_edge b a u v)) as [H'|H']; try done.
    + destruct H'. by apply same_edge_sym.
    + destruct H. by apply same_edge_sym.
  - intros a b d. rewrite edge_ref_add_edge.
    destruct (decide (same_edge a b u v)) as [H|H].
    + intros [= <-]. done.
    + intros Hab. apply Hbound in Hab. lia.
  - intros a b a' b' d. rewrite !edge_ref_add_edge.
    destruct (decide (same_edge a b u v)) as [H|H],
             (decide (same_edge a' b' u v)) as [H'|H'].
    + intros _ _. unfold same_edge in *. lia.
    + intros [= <-] Hab'. destruct (edge_ref g u v) as [d|] eqn:Huv; cbn in Hab'.
      * destruct H'. by eapply Hinj.
      * apply Hbound in Hab'. lia.
    + intros Hab [= <-]. destruct (edge_ref g u v) as [d|] eqn:Huv; cbn in Hab.
      * destruct H. by eapply Hinj.
      * apply Hbound in Hab. lia.
    + apply Hinj.
Qed.

Lemma empty_graph_spec n :
  attrs (empty_graph n) = [] /\ forall a b, edge_ref (empty_graph n) a b = None.
Proof.
  unfold empty_graph. generalize (seq 0 n) as l.
  assert (Hgen : forall l g, attrs g = [] -> (forall a b, edge_ref g a b = None) ->
            attrs (foldl (fun g u => add_node u g) g l) = [] /\
            forall a b, edge_ref (foldl (fun g u => add_node u g) g l) a b = None).
  { induction l as [|u l IH]; intros g Ha He; cbn; [done|].
    apply IH; [by rewrite attrs_add_node|]. intros a b. by rewrite edge_ref_add_node. }
  intros l. apply Hgen; [done|]. intros a b. unfold edge_ref. cbn. by rewrite lookup_empty.
Qed.

Lemma foldl_add_edge_spec es : forall g,
  wf_graph g ->
  wf_graph (foldl add_edge g es) /\
  forall a b, is_Some (edge_ref (foldl add_edge g es) a b) <->
    is_Some (edge_ref g a b) \/ exists u v, (u, v) ∈ es /\ same_edge a b u v.
Proof.
  induction es as [|[u v] es IH]; intros g Hwf; cbn [foldl].
  - split; [done|]. intros a b. split; [by left|].
    intros [H|(u & v & Hin & _)]; [done|]. by apply elem_of_nil in Hin.
  - destruct (IH (add_edge g (u, v)) (wf_graph_add_edge g u v Hwf)) as [Hwf' Hdom].
    split; [done|]. intros a b. rewrite Hdom, edge_ref_add_edge.
    destruct (decide (same_edge a b u v)) as [H|H].
    + split; [|intros _; left; by eexists].
      intros _. right. exists u, v. split; [apply list_elem_of_here|done].
    + split.
      * intros [Hs|(u' & v' & Hin & Hse)]; [by left|].
        right. exists u', v'. split; [by apply list_elem_of_further|done].
      * intros [Hs|(u' & v' & Hin & Hse)]; [by left|].
        apply elem_of_cons in Hin as [[= -> ->]|Hin]; [done|].
        right. by exists u', v'.
Qed.

Lemma elem_of_combinations n u v : (u, v) ∈ combinations n <-> u < v /\ v < n.
Proof.
  unfold combinations. rewrite list_elem_of_bind. split.
  - intros (u' & Hin & Hu'). apply list_elem_of_fmap in Hin as (v' & [= -> ->] & Hv').
    apply elem_of_seq in Hv', Hu'. lia.
  - intros [Huv Hvn]. exists u. split.
    + apply list_elem_of_fmap. exists v. split; [done|]. apply elem_of_seq. lia.
    + apply elem_of_seq. lia.
Qed.

Lemma complete_graph_spec n :
  wf_graph (complete_graph n) /\
  forall a b, is_Some (edge_ref (complete_graph n) a b) <-> a <> b /\ a < n /\ b < n.
Proof.
  destruct (empty_graph_spec n) as [Hattrs Hnone].
  assert (Hwf0 : wf_graph (empty_graph n)).
  { split; intros *; rewrite ?Hnone; done. }
  destruct (foldl_add_edge_spec (combinations n) _ Hwf0) as [Hwf Hdom].
  split; [done|]. intros a b. unfold complete_graph. rewrite Hdom, Hnone. split.
  - intros [[? [=]]|(u & v & Hin & Hse)].
    apply elem_of_combinations in Hin. unfold same_edge in Hse. lia.
  - intros (Hne & Ha & Hb). right.
    destruct (decide (a < b)).
    + exists a, b. split; [apply elem_of_combinations; lia|by left].
    + exists b, a. split; [apply elem_of_combinations; lia|by right].
Qed.

(** * Assigning the weights *)

Lemma set_weight_spec g u v w d :
  wf_graph g -> edge_ref g u v = Some d ->
  exists g', set_weight g u v w = Ok g' /\ adj g' = adj g /\ wf_graph g' /\
    forall a b, weight g' a b =
      if decide (same_edge a b u v) then Ok w else weight g a b.
Proof.
  intros Hwf Huv. unfold set_weight. rewrite edge_data_ref, Huv. cbn [mbind result_bind].
  eexists. split; [reflexivity|]. destruct Hwf as [Hsym Hbound Hinj].
  split; [done|]. split.
  - split; unfold edge_ref in *; cbn [adj attrs]; rewrite ?length_insert; eauto.
  - intros a b. unfold weight. rewrite !edge_data_ref.
    change (edge_ref (mkGraph (adj g) (<[d:=Some w]> (attrs g))) a b) with (edge_ref g a b).
    cbn [attrs].
    destruct (decide (same_edge a b u v)) as [Hse|Hse].
    + assert (Hab : edge_ref g a b = Some d).
      { destruct Hse as [[-> ->]|[-> ->]]; [done|by rewrite Hsym]. }
      rewrite Hab. cbn [mbind result_bind].
      rewrite list_lookup_insert_eq by (by eapply Hbound). done.
    + destruct (edge_ref g a b) as [d'|] eqn:Hab; cbn [mbind result_bind]; [|done].
      destruct (decide (d = d')) as [<-|Hne].
      * destruct Hse. by eapply Hinj.
      * by rewrite list_lookup_insert_ne.
Qed.

Lemma assign_weights_spec {libm : Libm} pos es : forall g,
  wf_graph g ->
  (forall u v, (u, v) ∈ es -> is_Some (edge_ref g u v)) ->
  (forall u v, (u, v) ∈ es -> exists w, dist pos u v = Ok w) ->
  exists g', assign_weights pos es g = Ok g' /\ adj g' = adj g /\ wf_graph g' /\
    forall a b,
      (~ (exists u v, (u, v) ∈ es /\ same_edge a b u v) -> weight g' a b = weight g a b) /\
      ((exists u v, (u, v) ∈ es /\ same_edge a b u v) ->
         exists u v, (u, v) ∈ es /\ same_edge a b u v /\ weight g' a b = dist pos u v).
Proof.
  induction es as [|[u v] es IH]; intros g Hwf Hedge Hdist; cbn [assign_weights].
  - exists g. split_and!; [done|done|done|]. intros a b. split; [done|].
    intros (u & v & Hin & _). by apply elem_of_nil in Hin.
  - destruct (Hdist u v) as [w Hw]; [apply list_elem_of_here|].
    destruct (Hedge u v) as [d Hd]; [apply list_elem_of_here|].
    rewrite Hw. cbn [mbind result_bind].
    destruct (set_weight_spec g u v w d Hwf Hd) as (g1 & Hset & Hadj1 & Hwf1 & Hw1).
    rewrite Hset. cbn [mbind result_bind].
    destruct (IH g1 Hwf1) as (g' & Hrun & Hadj & Hwf' & Hw').
    { intros u' v' Hin. unfold edge_ref. rewrite Hadj1.
      apply Hedge. by apply list_elem_of_further. }
    { intros u' v' Hin. apply Hdist. by apply list_elem_of_further. }
    exists g'. split_and!; [done|congruence|done|].
    intros a b. destruct (Hw' a b) as [Hout Hin].
    destruct (decide (Exists (fun e => same_edge a b e.1 e.2) es)) as [Hex|Hex].
    + assert (Hex' : exists u' v', (u', v') ∈ es /\ same_edge a b u' v').
      { apply Exists_exists in Hex as ([u' v'] & Hin' & Hse). by exists u', v'. }
      destruct (Hin Hex') as (u' & v' & Hin' & Hse & Hwab). split.
      * intros Hno. destruct Hno. exists u', v'. split; [by apply list_elem_of_further|done].
      * intros _. exists u', v'. split_and!; [by apply list_elem_of_further|done|done].
    + assert (Hex' : ~ exists u' v', (u', v') ∈ es /\ same_edge a b u' v').
      { intros (u' & v' & Hin' & Hse). apply Hex, Exists_exists.
        by exists (u', v'). }
      rewrite (Hout Hex'), Hw1. split.
      * intros Hno. destruct (decide (same_edge a b u v)) as [Hse|Hse]; [|done].
        destruct Hno. exists u, v. split; [apply list_elem_of_here|done].
      * intros (u' & v' & Hin' & Hse).
        apply elem_of_cons in Hin' as [[= -> ->]|Hin'].
        -- exists u, v. split_and!; [apply list_elem_of_here|done|].
           by rewrite decide_True.
        -- destruct Hex'. by exists u', v'.
Qed.

Lemma assign_weights_raises {libm : Libm} pos es : forall g u v e,
  (u, v) ∈ es -> dist pos u v = Raise e ->
  exists e', assign_weights pos es g = Raise e'.
Proof.
  induction es as [|[u' v'] es IH]; intros g u v e Hin Hd.
  - by apply elem_of_nil in Hin.
  - cbn [assign_weights]. destruct (dist pos u' v') as [w|e1] eqn:Hw; cbn [mbind result_bind];
      [|by exists e1].
    destruct (set_weight g u' v' w) as [g1|e2]; cbn [mbind result_bind]; [|by exists e2].
    apply elem_of_cons in Hin as [[= -> ->]|Hin]; [congruence|].
    by eapply IH.
Qed.

Lemma assign_weights_adj {libm : Libm} pos es : forall g g',
  assign_weights pos es g = Ok g' -> adj g' = adj g.
Proof.
  induction es as [|[u v] es IH]; intros g g'; cbn [assign_weights].
  - by intros [= ->].
  - destruct (dist pos u v) as [w|]; cbn [mbind result_bind]; [|done].
    unfold set_weight. destruct (edge_data g u v) as [d|]; cbn [mbind result_bind]; [|done].
    intros Hrun. by rewrite (IH _ _ Hrun).
Qed.

(** * Phase I: the graph that [G] builds *)

Lemma G_spec {libm : Libm} num_bins pos :
  distances_defined num_bins pos ->
  exists g, G num_bins pos = Ok g /\
    adj g = adj (complete_graph num_bins) /\
    forall u v, u < v -> v < num_bins ->
      weight g u v = dist pos u v /\ weight g v u = dist pos u v.
Proof.
  intros Hvalid. unfold G.
  destruct (complete_graph_spec num_bins) as [Hwf Hdom].
  destruct (assign_weights_spec pos (combinations num_bins) _ Hwf)
    as (g & Hrun & Hadj & _ & Hw).
  - intros u v Hin%elem_of_combinations. apply Hdom. lia.
  - intros u v Hin%elem_of_combinations. apply Hvalid; lia.
  - exists g. split_and!; [done|done|]. intros u v Huv Hvn.
    assert (Hpair : forall a b, same_edge a b u v -> weight g a b = dist pos u v).
    { intros a b Hse. destruct (Hw a b) as [_ Hin].
      destruct Hin as (u' & v' & Hin' & Hse' & ->).
      - exists u, v. split; [apply elem_of_combinations; lia|done].
      - apply elem_of_combinations in Hin'. unfold same_edge in *.
        assert (u' = u /\ v' = v) as [-> ->] by lia. done. }
    split; apply Hpair; [by left|by right].
Qed.

Lemma G_no_self_loop {libm : Libm} num_bins pos g u :
  G num_bins pos = Ok g -> weight g u u = Raise KeyError.
Proof.
  intros Hrun. apply assign_weights_adj in Hrun.
  destruct (complete_graph_spec num_bins) as [_ Hdom].
  unfold weight. rewrite edge_data_ref. unfold edge_ref. rewrite Hrun.
  change (adj (complete_graph num_bins) !! u ≫= (.!! u))
    with (edge_ref (complete_graph num_bins) u u).
  destruct (edge_ref (complete_graph num_bins) u u) as [d|] eqn:Hd; [|done].
  assert (Hs : is_Some (edge_ref (complete_graph num_bins) u u)) by (by rewrite Hd).
  apply Hdom in Hs. lia.
Qed.

Lemma distances_definedb_sound {libm : Libm} num_bins pos :
  distances_definedb num_bins pos = true -> distances_defined num_bins pos.
Proof.
  unfold distances_definedb. rewrite forallb_forall. intros H u v Huv Hvn.
  specialize (H (u, v)). cbn in H.
  destruct (dist pos u v) as [w|]; [by exists w|].
  discriminate H. apply list_elem_of_In, elem_of_combinations. lia.
Qed.

Lemma distances_are_numbersb_sound {libm : Libm} num_bins pos :
  distances_are_numbersb num_bins pos = true -> distances_are_numbers num_bins pos.
Proof.
  unfold distances_are_numbersb. rewrite forallb_forall. intros H u v Huv Hvn.
  specialize (H (u, v)). cbn in H.
  destruct (dist pos u v) as [w|].
  - exists w. split; [done|]. apply negb_true_iff, H.
    apply list_elem_of_In, elem_of_combinations. lia.
  - discriminate H. apply list_elem_of_In, elem_of_combinations. lia.
Qed.

Lemma distances_are_numbers_defined {libm : Libm} num_bins pos :
  distances_are_numbers num_bins pos -> distances_defined num_bins pos.
Proof. intros H u v Huv Hvn. destruct (H u v Huv Hvn) as (w & Hw & _). by exists w. Qed.

(** * Numbers that are not negative: [0 <= x] *)











(** * The square of a difference does not depend on the order *)









(** * The weights are Euclidean distances *)










(** The same holds with any C library whose [pow] overflows to infinity on
    that difference. *)
Lemma G_far_apart_raises {libm : Libm} :
  (libm_pow2 0x1p+600%float).1 = PrimFloat.infinity ->
  exists e, G 2 far_apart = Raise e.
Proof.
  intros Hinf.
  assert (Hd : exists e, dist far_apart 0 1 = Raise e).
  { destruct libm as [pow]. cbn [libm_pow2] in Hinf. vm_compute.
    destruct (pow 0x1p+600%float) as [ix errno]. cbn [fst] in Hinf. subst ix.
    destruct errno; vm_compute; eauto. }
  destruct Hd as [e Hd]. exists e. unfold G.
  change (combinations 2) with [(0, 1)]. cbn [assign_weights]. by rewrite Hd.
Qed.

(** * A correctly rounded square *)

Lemma mul_abs x :
  PrimFloat.mul (PrimFloat.abs x) (PrimFloat.abs x) = PrimFloat.mul x x.
Proof.
  apply Prim2SF_inj. rewrite !mul_spec, abs_spec. unfold SF64mul, SFmul.
  by destruct (Prim2SF x) as [[]|[]| |[] m e].
Qed.

Lemma eqb_abs_sf x c :
  PrimFloat.eqb (PrimFloat.abs x) c = true -> sf_key (SFabs (Prim2SF x)) = fkey c.
Proof.
  intros H. destruct (eqb_not_nan _ _ H) as [H1 H2].
  apply (eqb_key _ _ H1 H2) in H. unfold fkey in H. by rewrite abs_spec in H.
Qed.

(** With a correctly rounded [pow], [x ** 2] is the rounded product [x * x]
    whenever it raises nothing. *)
Lemma pow2_exact_libm x s :
  @PyFloat.pow2 exact_libm x = Ok s -> s = PrimFloat.mul x x.
Proof.
  unfold PyFloat.pow2. cbn [libm_pow2 exact_libm].
  destruct (PrimFloat.is_nan x) eqn:Hn.
  { intros [= <-]. apply Prim2SF_inj. rewrite mul_spec.
    apply is_nan_true in Hn. by rewrite Hn. }
  destruct (PrimFloat.is_infinity x) eqn:Hi.
  { intros [= <-]. apply Prim2SF_inj. rewrite mul_spec.
    apply eqb_abs_sf in Hi. unfold fkey in Hi.
    change (Prim2SF PrimFloat.infinity) with (S754_infinity false) in *.
    by destruct (Prim2SF x) as [[]|[]| |[] m e]. }
  destruct (PrimFloat.eqb x PrimFloat.zero) eqn:Hz.
  { intros [= <-]. apply Prim2SF_inj. rewrite mul_spec.
    destruct (eqb_not_nan _ _ Hz) as [H1 H2]. apply (eqb_key _ _ H1 H2) in Hz.
    unfold fkey in Hz. change (Prim2SF PrimFloat.zero) with (S754_zero false) in *.
    by destruct (Prim2SF x) as [[]|[]| |[] m e]. }
  destruct (PrimFloat.eqb (PrimFloat.abs x) PrimFloat.one) eqn:H1.
  { intros [= <-]. apply Prim2SF_inj. rewrite mul_spec.
    apply eqb_abs_sf in H1. unfold fkey in H1.
    destruct (Prim2SF PrimFloat.one) as [| | |s1 m1 e1] eqn:Hone;
      try (vm_compute in Hone; discriminate).
    assert (s1 = false) as -> by (vm_compute in Hone; congruence).
    destruct (Prim2SF x) as [[]|[]| |sx m e]; try done.
    assert (m = m1 /\ e = e1) as [-> ->]
      by (destruct sx; cbn in H1; injection H1; intros; split; congruence).
    injection Hone as <- <-. by destruct sx. }
  cbv beta iota zeta.
  destruct (PrimFloat.is_infinity (PrimFloat.mul _ _)); [done|].
  intros [= <-]. apply mul_abs.
Qed.

Lemma euclidean_distance_exact_libm p q w :
  @euclidean_distance exact_libm p q = Ok w ->
  let dx := PrimFloat.sub p.1 q.1 in
  let dy := PrimFloat.sub p.2 q.2 in
  w = PrimFloat.sqrt (PrimFloat.add (PrimFloat.mul dx dx) (PrimFloat.mul dy dy)).
Proof.
  unfold euclidean_distance.
  destruct (PyFloat.pow2 (PrimFloat.sub p.1 q.1)) as [sx|] eqn:Hx; [|done].
  destruct (PyFloat.pow2 (PrimFloat.sub p.2 q.2)) as [sy|] eqn:Hy; [|done].
  cbn [mbind result_bind]. intros [= <-].
  by rewrite (pow2_exact_libm _ _ Hx), (pow2_exact_libm _ _ Hy).
Qed.

Lemma sub_diag_finite x :
  PrimFloat.is_finite x = true -> PrimFloat.sub x x = PrimFloat.zero.
Proof.
  intros Hfin. apply Prim2SF_inj. rewrite sub_spec.
  change (Prim2SF PrimFloat.zero) with (S754_zero false).
  unfold PrimFloat.is_finite in Hfin. apply negb_true_iff, orb_false_iff in Hfin as [Hn Hi].
  apply is_nan_false in Hn. unfold PrimFloat.is_infinity in Hi.
  rewrite FloatAxioms.eqb_spec, abs_spec in Hi.
  change (Prim2SF PrimFloat.infinity) with (S754_infinity false) in Hi.
  unfold SF64sub, SFsub.
  destruct (Prim2SF x) as [[]|[]| |sx m e]; try done.
  by rewrite Z.sub_diag.
Qed.

(** The distance from a position to itself is 0, whatever the C library. *)
Lemma euclidean_distance_same_position {libm : Libm} (p : float * float) :
  PrimFloat.is_finite p.1 = true -> PrimFloat.is_finite p.2 = true ->
  euclidean_distance p p = Ok PrimFloat.zero.
Proof.
  intros H1 H2. unfold euclidean_distance.
  rewrite (sub_diag_finite _ H1), (sub_diag_finite _ H2).
  reflexivity.
Qed.

(** Line 49 on a 3-4-5 triangle. *)
Example dist_3_4_5 :
  @dist exact_libm (<[0 := [0; 0]%float]> (<[1 := [3; 4]%float]> ∅)) 0 1 = Ok 5%float.
Proof. vm_compute. reflexivity. Qed.

Example G_unit_square_diagonal :
  weight unit_square_graph 1 3 = Ok 0x1.6a09e667f3bcdp+0%float /\
  weight unit_square_graph 3 1 = Ok 0x1.6a09e667f3bcdp+0%float.
Proof. split; vm_compute; reflexivity. Qed.

(** * The lone depot *)

Lemma critical_bins_none_above num_bins randint T :
  (forall i, (randint i <= T)%Z) ->
  critical_bins (node_fill_levels num_bins randint) T = [0].
Proof.
  intros Hle. rewrite critical_bins_filter, node_fill_levels_items.
  rewrite filter_cons_False by (cbn; intros [? _]; done).
  induction (seq 1 (num_bins - 1)) as [|i l IH]; [done|].
  cbn [fmap list_fmap]. rewrite filter_cons_False; [done|].
  cbn. specialize (Hle i). lia.
Qed.

(** C3: when no bin is above the threshold the critical list is [[0]] and the
    dynamic route is [[0, 0]], but the distance of that route is not 0: the
    complete graph has no edge from the depot to itself and
    [calculate_route_distance] raises [KeyError]. *)
Theorem lone_depot_distance_raises {libm : Libm} (num_bins : nat) (pos : gmap nat (list float))
    (randint : nat -> Z) (fill_threshold : Z) (g : Graph) :
  G num_bins pos = Ok g -> (forall i, (randint i <= fill_threshold)%Z) ->
  critical_bins (node_fill_levels num_bins randint) fill_threshold = [0] /\
  dynamic_route g [0] = Ok [0; 0] /\
  calculate_route_distance g [0; 0] = Raise KeyError.
Proof.
  intros HG Hle. split_and!.
  - by apply critical_bins_none_above.
  - reflexivity.
  - unfold calculate_route_distance. cbn [length Nat.sub seq distance_loop].
    change (index [0; 0] 0) with (Ok 0). change (index [0; 0] (0 + 1)) with (Ok 0).
    cbn [mbind result_bind].
    by rewrite (G_no_self_loop _ _ _ 0 HG).
Qed.

Lemma lone_depot_distance_raises_witness :
  critical_bins (node_fill_levels 5 (fun _ => 50%Z)) 100 = [0] /\
  dynamic_route unit_square_graph [0] = Ok [0; 0] /\
  calculate_route_distance unit_square_graph [0; 0] = Raise KeyError.
Proof.
  apply (@lone_depot_distance_raises exact_libm 5 unit_square (fun _ => 50%Z) 100 unit_square_graph).
  - vm_compute. reflexivity.
  - intros i. lia.
Defined.

(** Scenario A of the specification: the whole run raises [KeyError]. *)
Example simulation_scenario_A :
  @simulation exact_libm 5 unit_square (fun _ => 50%Z) 100 = Raise KeyError.
Proof. vm_compute. reflexivity. Qed.

(** With a bin above the threshold the run succeeds. *)
Example simulation_scenario_C :
  exists ds dd saving,
    @simulation exact_libm 4 scenario_C_pos scenario_fills 75 = Ok (ds, dd, saving).
Proof. vm_compute. do 3 eexists. reflexivity. Qed.

(** * NaN coordinates and missing positions *)

Lemma sub_nan x y :
  PrimFloat.is_nan x = true \/ PrimFloat.is_nan y = true ->
  PrimFloat.is_nan (PrimFloat.sub x y) = true.
Proof.
  rewrite !is_nan_true, sub_spec. unfold SF64sub, SFsub.
  intros [-> | ->]; [done|]. by destruct (Prim2SF x).
Qed.

Lemma add_nan x y :
  PrimFloat.is_nan x = true \/ PrimFloat.is_nan y = true ->
  PrimFloat.is_nan (PrimFloat.add x y) = true.
Proof.
  rewrite !is_nan_true, add_spec. unfold SF64add, SFadd.
  intros [-> | ->]; [done|]. by destruct (Prim2SF x).
Qed.

Lemma pow2_nan {libm : Libm} x r :
  PrimFloat.is_nan x = true -> PyFloat.pow2 x = Ok r -> PrimFloat.is_nan r = true.
Proof. unfold PyFloat.pow2. intros Hx. rewrite Hx. by intros [= <-]. Qed.

Lemma math_sqrt_nan x r :
  PrimFloat.is_nan x = true -> PyFloat.math_sqrt x = Ok r -> PrimFloat.is_nan r = true.
Proof.
  unfold PyFloat.math_sqrt. intros Hx.
  destruct (PrimFloat.ltb x PrimFloat.zero); [done|]. intros [= <-].
  apply is_nan_true in Hx. apply is_nan_true. rewrite sqrt_spec, Hx. done.
Qed.

Lemma dist_nan {libm : Libm} pos a b w p x :
  dist pos a b = Ok w ->
  pos !! a = Some p \/ pos !! b = Some p ->
  p !! 0 = Some x \/ p !! 1 = Some x ->
  PrimFloat.is_nan x = true ->
  PrimFloat.is_nan w = true.
Proof.
  unfold dist, getitem, index. intros Hd Hp Hx Hnan.
  destruct (pos !! a) as [pa|]; cbn [mbind result_bind] in Hd; [|done].
  destruct (pa !! 0) as [xa|] eqn:Hxa; cbn [mbind result_bind] in Hd; [|done].
  destruct (pos !! b) as [pb|]; cbn [mbind result_bind] in Hd; [|done].
  destruct (pb !! 0) as [xb|] eqn:Hxb; cbn [mbind result_bind] in Hd; [|done].
  destruct (PyFloat.pow2 (PrimFloat.sub xa xb)) as [dx2|] eqn:Hdx;
    cbn [mbind result_bind] in Hd; [|done].
  destruct (pa !! 1) as [ya|] eqn:Hya; cbn [mbind result_bind] in Hd; [|done].
  destruct (pb !! 1) as [yb|] eqn:Hyb; cbn [mbind result_bind] in Hd; [|done].
  destruct (PyFloat.pow2 (PrimFloat.sub ya yb)) as [dy2|] eqn:Hdy;
    cbn [mbind result_bind] in Hd; [|done].
  refine (math_sqrt_nan _ _ _ Hd).
  apply add_nan.
  destruct Hp as [[= <-]|[= <-]], Hx as [Hx|Hx]; rewrite Hx in *; simplify_eq.
  - left. eapply pow2_nan; [|done]. apply sub_nan. by left.
  - right. eapply pow2_nan; [|done]. apply sub_nan. by left.
  - left. eapply pow2_nan; [|done]. apply sub_nan. by right.
  - right. eapply pow2_nan; [|done]. apply sub_nan. by right.
Qed.

Lemma dist_missing {libm : Libm} pos u v : pos !! u = None -> dist pos u v = Raise KeyError.
Proof. unfold dist, getitem. by intros ->. Qed.

(** C9, as the code has it: there is no check of the coordinates and no
    InvalidGeometry condition. A location without a position makes line 49
    raise [KeyError] at [pos[u]] and [G] raise; a NaN coordinate raises
    nothing by itself: when line 49 raises nothing, the graph is built and
    every edge at that location has a NaN weight. *)
Theorem G_no_geometry_check {libm : Libm} (num_bins : nat) (pos : gmap nat (list float)) (u : nat) :
  2 <= num_bins -> u < num_bins ->
  (pos !! u = None ->
     (forall v, dist pos u v = Raise KeyError) /\
     exists e, G num_bins pos = Raise e) /\
  (forall p x, pos !! u = Some p -> p !! 0 = Some x \/ p !! 1 = Some x ->
     PrimFloat.is_nan x = true -> distances_defined num_bins pos ->
     exists g, G num_bins pos = Ok g /\
       forall v, v < num_bins -> v <> u ->
         exists w, weight g u v = Ok w /\ PrimFloat.is_nan w = true).
Proof.
  intros Hn Hu. split.
  - intros Hmiss. split; [intros v; by apply dist_missing|].
    destruct (decide (u = 0)) as [->|Hu0].
    + apply (assign_weights_raises pos _ _ 0 1 KeyError).
      * apply elem_of_combinations. lia.
      * by apply dist_missing.
    + destruct (dist pos 0 u) as [w|e] eqn:Hd.
      * unfold dist, getitem in Hd. rewrite Hmiss in Hd.
        destruct (pos !! 0) as [p0|]; cbn [mbind result_bind] in Hd; [|done].
        destruct (index p0 0); cbn [mbind result_bind] in Hd; done.
      * apply (assign_weights_raises pos _ _ 0 u e); [|done].
        apply elem_of_combinations. lia.
  - intros p x Hp Hx Hnan Hdef.
    destruct (G_spec num_bins pos Hdef) as (g & Hrun & _ & Hw).
    exists g. split; [done|]. intros v Hv Hne.
    destruct (decide (u < v)) as [Hlt|Hge].
    + destruct (Hdef u v Hlt Hv) as [w Hd]. destruct (Hw u v Hlt Hv) as [H1 _].
      exists w. split; [by rewrite H1|].
      eapply dist_nan; [exact Hd|by left|exact Hx|exact Hnan].
    + assert (Hlt : v < u) by lia.
      destruct (Hdef v u Hlt Hu) as [w Hd]. destruct (Hw v u Hlt Hu) as [_ H2].
      exists w. split; [by rewrite H2|].
      eapply dist_nan; [exact Hd|by right|exact Hx|exact Hnan].
Qed.

Lemma G_no_geometry_check_witness :
  (nan_pos !! 0 = None ->
     (forall v, @dist exact_libm nan_pos 0 v = Raise KeyError) /\
     exists e, @G exact_libm 2 nan_pos = Raise e) /\
  (forall p x, nan_pos !! 0 = Some p -> p !! 0 = Some x \/ p !! 1 = Some x ->
     PrimFloat.is_nan x = true -> @distances_defined exact_libm 2 nan_pos ->
     exists g, @G exact_libm 2 nan_pos = Ok g /\
       forall v, v < 2 -> v <> 0 ->
         exists w, weight g 0 v = Ok w /\ PrimFloat.is_nan w = true).
Proof. apply (@G_no_geometry_check exact_libm 2 nan_pos 0); lia. Defined.

(** C9 as stated fails: location 0 has a NaN coordinate, yet [G] raises
    nothing; it returns a graph whose only edge has a NaN weight. *)
Lemma G_nan_coordinate_builds :
  (exists x y, nan_pos !! 0 = Some [x; y] /\ PrimFloat.is_nan x = true) /\
  @distances_defined exact_libm 2 nan_pos /\
  ~ (exists e, @G exact_libm 2 nan_pos = Raise e) /\
  exists g w, @G exact_libm 2 nan_pos = Ok g /\ weight g 0 1 = Ok w /\ PrimFloat.is_nan w = true.
Proof.
  split_and!.
  - eexists _, _. split; vm_compute; reflexivity.
  - apply (@distances_definedb_sound exact_libm). vm_compute. reflexivity.
  - intros [e He]. vm_compute in He. discriminate.
  - destruct (@G exact_libm 2 nan_pos) as [g|] eqn:HG; [|vm_compute in HG; discriminate].
    exists g. assert (Hw : weight g 0 1 = Ok PrimFloat.nan).
    { vm_compute in HG. injection HG as <-. vm_compute. reflexivity. }
    exists PrimFloat.nan. split_and!; [done|done|reflexivity].
Qed.

(** A missing position surfaces as [KeyError]. *)
Example G_missing_position :
  @G exact_libm 2 (<[0 := [0; 0]%float]> ∅) = Raise KeyError.
Proof. vm_compute. reflexivity. Qed.

(** A missing coordinate surfaces as [IndexError]. *)
Example G_missing_coordinate :
  @G exact_libm 2 (<[0 := [0; 0]%float]> (<[1 := [1%float]]> ∅)) = Raise IndexError.
Proof. vm_compute. reflexivity. Qed.

(** Line 49 can also fail on well-formed finite coordinates: the square
    overflows. *)
Example G_overflow :
  @G exact_libm 2 (<[0 := [0x1p+600; 0]%float]> (<[1 := [0; 0]%float]> ∅)) = Raise OverflowError.
Proof. vm_compute. reflexivity. Qed.

(** * The loop budget is never exhausted *)

Lemma min_scan_elem key best best_key l n :
  min_scan key best best_key l = Ok n -> n ∈ best :: l.
Proof.
  revert best best_key. induction l as [|x l IH]; intros best best_key; cbn [min_scan].
  - intros [= ->]. apply list_elem_of_here.
  - destruct (key x) as [k|]; cbn [mbind result_bind]; [|done].
    destruct (PrimFloat.ltb k best_key); intros Hn%IH.
    + by apply list_elem_of_further.
    + apply elem_of_cons in Hn as [->|Hn]; [apply list_elem_of_here|].
      by do 2 apply list_elem_of_further.
Qed.

Lemma py_min_elem key l n : py_min l key = Ok n -> n ∈ l.
Proof.
  destruct l as [|x l]; cbn [py_min]; [done|].
  destruct (key x) as [k|]; cbn [mbind result_bind]; [|done].
  apply min_scan_elem.
Qed.

Lemma weight_no_diverge g u v : weight g u v <> Raise Diverge.
Proof.
  unfold weight, edge_data, getitem.
  destruct (adj g !! u) as [nbrs|]; cbn [mbind result_bind]; [|done].
  destruct (nbrs !! v) as [d|]; cbn [mbind result_bind]; [|done].
  by destruct (attrs g !! d) as [[w|]|].
Qed.

Lemma min_scan_no_diverge key l : forall best best_key,
  (forall x, key x <> Raise Diverge) -> min_scan key best best_key l <> Raise Diverge.
Proof.
  induction l as [|y l IH]; intros best best_key Hkey; cbn [min_scan]; [done|].
  specialize (Hkey y) as Hy. destruct (key y) as [k|e]; cbn [mbind result_bind].
  - destruct (PrimFloat.ltb k best_key); by apply IH.
  - congruence.
Qed.

Lemma py_min_no_diverge key l :
  (forall x, key x <> Raise Diverge) -> py_min l key <> Raise Diverge.
Proof.
  intros Hkey. destruct l as [|x l]; cbn [py_min]; [done|].
  specialize (Hkey x) as Hx. destruct (key x) as [k|e]; cbn [mbind result_bind].
  - by apply min_scan_no_diverge.
  - congruence.
Qed.

Lemma nearest_order_no_diverge fuel : forall g cur U,
  length U < fuel -> nearest_order fuel g cur U <> Raise Diverge.
Proof.
  induction fuel as [|fuel IH]; intros g cur U Hlen; [lia|].
  cbn [nearest_order]. destruct (bool_decide (U = [])); [done|].
  pose proof (py_min_no_diverge (fun x => weight g cur x) U
                (fun x => weight_no_diverge g cur x)) as Hnd.
  destruct (py_min U (fun x => weight g cur x)) as [n|e] eqn:Hmin;
    cbn [mbind result_bind]; [|congruence].
  destruct (remove_first_elem n U (py_min_elem _ _ _ Hmin)) as (l1 & l2 & -> & _ & ->).
  specialize (IH g n (l1 ++ l2)). rewrite length_app in *. cbn in Hlen.
  destruct (nearest_order fuel g n (l1 ++ l2)) as [mid|e]; [done|].
  cbn. intros [= ->]. apply IH; [lia|done].
Qed.

(** [get_greedy_route] always terminates within its loop budget. *)
Lemma get_greedy_route_terminates g r h :
  (get_greedy_route g r h).1 <> Raise Diverge.
Proof.
  destruct (h !! r) as [L|] eqn:HL.
  - destruct (get_greedy_route_run g r h L HL) as (res & h' & Hrun & _ & Hres).
    rewrite Hrun. cbn [fst]. destruct (remove_first 0 L) as [U|]; [|by subst].
    pose proof (nearest_order_no_diverge (S (length U)) g 0 U ltac:(lia)) as Hnd.
    destruct (nearest_order (S (length U)) g 0 U) as [mid|e].
    + by destruct Hres as [-> _].
    + subst res. congruence.
  - unfold get_greedy_route, list_copy, mbind, M_bind, read. by rewrite HL.
Qed.

(** * The graph of [G] is a distance graph on the critical list *)

Lemma critical_bins_bound num_bins randint T x :
  x ∈ critical_bins (node_fill_levels num_bins randint) T -> x = 0 \/ x < num_bins.
Proof.
  rewrite critical_bins_filter, elem_of_cons. intros [->|Hx]; [by left|]. right.
  apply list_elem_of_fmap in Hx as ([k v] & -> & Hin).
  apply list_elem_of_filter in Hin as [[Hk0 _] Hin]. cbn in Hk0 |- *.
  assert (Hk : k ∈ (node_fill_levels num_bins randint).*1)
    by (apply list_elem_of_fmap; by exists (k, v)).
  rewrite node_fill_levels_keys in Hk.
  apply elem_of_cons in Hk as [->|Hk%elem_of_seq]; [done|lia].
Qed.

Lemma G_distance_graph_on {libm : Libm} num_bins pos g randint T :
  distances_are_numbers num_bins pos -> G num_bins pos = Ok g ->
  distance_graph_on g (critical_bins (node_fill_levels num_bins randint) T).
Proof.
  intros Hvalid HG u v Hu%critical_bins_bound Hv%critical_bins_bound Hne.
  destruct (G_spec num_bins pos (distances_are_numbers_defined _ _ Hvalid))
    as (g' & HG' & _ & Hw).
  rewrite HG in HG'. injection HG' as <-.
  destruct (decide (u < v)) as [Hlt|Hge].
  - destruct (Hvalid u v) as (w & Hd & Hnan); [lia|lia|].
    exists w. split; [|done]. destruct (Hw u v) as [-> _]; [lia|lia|done].
  - destruct (Hvalid v u) as (w & Hd & Hnan); [lia|lia|].
    exists w. split; [|done]. destruct (Hw v u) as [_ ->]; [lia|lia|done].
Qed.

(** * More on the fill levels and the critical filter *)

Lemma dict_get_fmap_seq (f : nat -> Z) a m i :
  dict_get ((fun i => (i, f i)) <$> seq a m) i =
    if decide (a <= i < a + m) then Some (f i) else None.
Proof.
  revert a. induction m as [|m IH]; intros a; cbn [seq fmap list_fmap dict_get].
  - rewrite decide_False by lia. done.
  - destruct (decide (a = i)) as [->|Hne].
    + by rewrite decide_True by lia.
    + change (dict_get ((fun i => (i, f i)) <$> seq (S a) m) i =
              if decide (a <= i < a + S m) then Some (f i) else None).
      rewrite IH. destruct (decide (S a <= i < S a + m)), (decide (a <= i < a + S m));
        (done || lia).
Qed.

(** X1: the dict of lines 56-58 has exactly the keys [0 .. num_bins-1], in
    increasing order; the depot holds 0 and bin [i] holds the value drawn for
    it; any other key is absent. *)
Theorem node_fill_levels_lookup (num_bins : nat) (randint : nat -> Z) :
  (node_fill_levels num_bins randint).*1 = 0 :: seq 1 (num_bins - 1) /\
  NoDup (node_fill_levels num_bins randint).*1 /\
  dict_getitem (node_fill_levels num_bins randint) 0 = Ok 0%Z /\
  (forall i, 1 <= i -> i < num_bins ->
     dict_getitem (node_fill_levels num_bins randint) i = Ok (randint i)) /\
  (forall i, 1 <= i -> num_bins <= i ->
     dict_getitem (node_fill_levels num_bins randint) i = Raise KeyError).
Proof.
  split_and!.
  - apply node_fill_levels_keys.
  - rewrite node_fill_levels_keys. apply NoDup_cons. split; [|apply NoDup_seq].
    intros H%elem_of_seq. lia.
  - by rewrite node_fill_levels_items.
  - intros i Hi Hn. unfold dict_getitem. rewrite node_fill_levels_items.
    cbn [dict_get]. rewrite decide_False by lia.
    rewrite dict_get_fmap_seq, decide_True by lia. done.
  - intros i Hi Hn. unfold dict_getitem. rewrite node_fill_levels_items.
    cbn [dict_get]. rewrite decide_False by lia.
    rewrite dict_get_fmap_seq, decide_False by lia. done.
Qed.

Lemma filter_fmap_seq (f : nat -> Z) (P : nat * Z -> Prop) `{!forall p, Decision (P p)} l :
  (filter P ((fun i => (i, f i)) <$> l)).*1 = filter (fun i => P (i, f i)) l.
Proof.
  induction l as [|i l IH]; [done|]. cbn [fmap list_fmap].
  destruct (decide (P (i, f i))) as [HP|HP].
  - rewrite !filter_cons_True by done. cbn. by rewrite <- IH.
  - rewrite !filter_cons_False by done. by rewrite <- IH.
Qed.

Lemma filter_nonzero_seq (f : nat -> Z) T m : forall a, 1 <= a ->
  filter (fun i => i <> 0 /\ (T < f i)%Z) (seq a m) =
  filter (fun i => (T < f i)%Z) (seq a m).
Proof.
  induction m as [|m IH]; intros a Ha; [done|]. cbn [seq].
  destruct (decide (T < f a)%Z) as [HT|HT].
  - rewrite filter_cons_True by (split; [lia|done]).
    rewrite (filter_cons_True (fun i => (T < f i)%Z)) by done.
    f_equal. apply IH. lia.
  - rewrite filter_cons_False by (intros [_ ?]; done).
    rewrite (filter_cons_False (fun i => (T < f i)%Z)) by done.
    apply IH. lia.
Qed.

Lemma critical_bins_pipeline num_bins randint T :
  critical_bins (node_fill_levels num_bins randint) T =
    0 :: filter (fun i => (T < randint i)%Z) (seq 1 (num_bins - 1)).
Proof.
  rewrite critical_bins_filter, node_fill_levels_items.
  rewrite filter_cons_False by (cbn; intros [? _]; done). f_equal.
  rewrite (filter_fmap_seq randint). cbn [fst snd].
  by apply filter_nonzero_seq.
Qed.

(** X2: the count shown as "Critical Bins" (line 157) is the number of bins,
    depot apart, whose fill level is above the threshold; it is never
    negative. *)
Theorem critical_count_spec (num_bins : nat) (randint : nat -> Z) (fill_threshold : Z) :
  critical_count (critical_bins (node_fill_levels num_bins randint) fill_threshold) =
    Z.of_nat (length (filter (fun i => (randint i > fill_threshold)%Z)
                             (seq 1 (num_bins - 1)))) /\
  (0 <= critical_count
          (critical_bins (node_fill_levels num_bins randint) fill_threshold))%Z /\
  (critical_count (critical_bins (node_fill_levels num_bins randint) fill_threshold)
     <= Z.of_nat (num_bins - 1))%Z.
Proof.
  rewrite critical_bins_pipeline. unfold critical_count. cbn [length].
  rewrite (list_filter_iff (fun i => (randint i > fill_threshold)%Z)
                           (fun i => (fill_threshold < randint i)%Z))
    by (intros i; lia).
  pose proof (length_filter (fun i => (fill_threshold < randint i)%Z)
                (seq 1 (num_bins - 1))) as Hle.
  rewrite length_seq in Hle. lia.
Qed.

(** X3: raising the threshold never adds a bin: the critical list at the higher
    threshold is a sublist of the one at the lower threshold. *)
Theorem critical_bins_threshold_monotone (node_fill_levels : list (nat * Z))
    (T T' : Z) :
  (T <= T')%Z ->
  sublist (critical_bins node_fill_levels T') (critical_bins node_fill_levels T).
Proof.
  intros HT. rewrite !critical_bins_filter. apply sublist_skip, fmap_sublist.
  induction node_fill_levels as [|[k v] items IH]; [done|].
  destruct (decide (k <> 0 /\ (T < v)%Z)) as [HQ|HQ].
  - rewrite (filter_cons_True (fun p : nat * Z => p.1 <> 0 /\ (T < p.2)%Z)) by done.
    destruct (decide (k <> 0 /\ (T' < v)%Z)) as [HP|HP].
    + rewrite (filter_cons_True (fun p : nat * Z => p.1 <> 0 /\ (T' < p.2)%Z)) by done.
      by apply sublist_skip.
    + rewrite (filter_cons_False (fun p : nat * Z => p.1 <> 0 /\ (T' < p.2)%Z)) by done.
      by apply sublist_cons.
  - rewrite (filter_cons_False (fun p : nat * Z => p.1 <> 0 /\ (T < p.2)%Z)) by done.
    rewrite (filter_cons_False (fun p : nat * Z => p.1 <> 0 /\ (T' < p.2)%Z))
      by (cbn in *; lia).
    done.
Qed.

Lemma critical_bins_threshold_monotone_witness :
  sublist (critical_bins [(0, 0%Z); (1, 50%Z); (2, 90%Z)] 75)
          (critical_bins [(0, 0%Z); (1, 50%Z); (2, 90%Z)] 40).
Proof.
  apply (critical_bins_threshold_monotone [(0, 0%Z); (1, 50%Z); (2, 90%Z)] 40 75). lia.
Defined.

(** X4: when every bin is above the threshold the critical list is
    [list(range(num_bins))]: the dynamic route has to visit every bin. *)
Theorem critical_bins_all_above (num_bins : nat) (randint : nat -> Z)
    (fill_threshold : Z) :
  1 <= num_bins -> (forall i, 1 <= i -> i < num_bins -> (fill_threshold < randint i)%Z) ->
  critical_bins (node_fill_levels num_bins randint) fill_threshold = seq 0 num_bins.
Proof.
  intros Hn Hall. rewrite critical_bins_pipeline.
  destruct num_bins as [|m]; [lia|]. cbn [seq]. f_equal.
  replace (S m - 1) with m by lia.
  assert (Hgen : forall a k, (forall i, a <= i -> i < a + k -> (fill_threshold < randint i)%Z) ->
            filter (fun i => (fill_threshold < randint i)%Z) (seq a k) = seq a k).
  { intros a k. revert a. induction k as [|k IH]; intros a Ha; [done|]. cbn [seq].
    rewrite filter_cons_True by (apply Ha; lia). f_equal. apply IH.
    intros i Hi1 Hi2. apply Ha; lia. }
  apply Hgen. intros i Hi1 Hi2. apply Hall; lia.
Qed.

Lemma critical_bins_all_above_witness :
  critical_bins (node_fill_levels 4 (fun _ => 80%Z)) 75 = seq 0 4.
Proof.
  apply (critical_bins_all_above 4 (fun _ => 80%Z) 75); [lia|]. intros i _ _. lia.
Defined.

(** * More on the planner *)

Lemma dynamic_route_run g critical :
  dynamic_route g critical =
    match remove_first 0 critical with
    | None => Raise ValueError
    | Some U => mid ← nearest_order (S (length U)) g 0 U; Ok (0 :: mid ++ [0])
    end.
Proof.
  unfold dynamic_route.
  destruct (get_greedy_route_run g 0 [critical] critical eq_refl)
    as (res & h' & Hrun & _ & Hres).
  rewrite Hrun. destruct (remove_first 0 critical) as [U|]; [|by subst].
  destruct (nearest_order (S (length U)) g 0 U) as [mid|e]; [|by subst].
  destruct Hres as [-> Hroute]. cbn [mbind result_bind length] in *. unfold index.
  by rewrite Hroute.
Qed.

(** X5: without the depot in its argument [get_greedy_route] raises
    [ValueError] (from [unvisited.remove(0)]), whatever the graph, and leaves
    the argument as it was. *)
Theorem get_greedy_route_missing_depot (graph : Graph) (h : store)
    (nodes_to_visit : ref) (nodes : list nat) :
  h !! nodes_to_visit = Some nodes -> 0 ∉ nodes ->
  (get_greedy_route graph nodes_to_visit h).1 = Raise ValueError /\
  (get_greedy_route graph nodes_to_visit h).2 !! nodes_to_visit = Some nodes.
Proof.
  intros Hh H0.
  destruct (get_greedy_route_run graph _ _ _ Hh) as (res & h' & Hrun & Hframe & Hres).
  rewrite Hrun, (remove_first_None _ _ H0) in *. cbn [fst snd]. split; [done|].
  rewrite Hframe; [done|]. by eapply lookup_lt_Some.
Qed.

Lemma get_greedy_route_missing_depot_witness :
  (get_greedy_route unit_square_graph 0 [[1; 3]]).1 = Raise ValueError /\
  (get_greedy_route unit_square_graph 0 [[1; 3]]).2 !! 0 = Some [1; 3].
Proof.
  apply (get_greedy_route_missing_depot unit_square_graph [[1; 3]] 0 [1; 3]).
  - reflexivity.
  - apply (bool_decide_unpack _). vm_compute. reflexivity.
Defined.

(** X6: [get_greedy_route] changes no list that existed before the call, and the
    route it returns is a new list: its reference was not in use before. *)
Theorem get_greedy_route_fresh_route (graph : Graph) (h : store)
    (nodes_to_visit : ref) (nodes : list nat) :
  h !! nodes_to_visit = Some nodes ->
  (forall r l, h !! r = Some l ->
     (get_greedy_route graph nodes_to_visit h).2 !! r = Some l) /\
  (forall route, (get_greedy_route graph nodes_to_visit h).1 = Ok route ->
     h !! route = None /\
     is_Some ((get_greedy_route graph nodes_to_visit h).2 !! route)).
Proof.
  intros Hh.
  destruct (get_greedy_route_run graph _ _ _ Hh) as (res & h' & Hrun & Hframe & Hres).
  rewrite Hrun. cbn [fst snd]. split.
  - intros r l Hr. rewrite Hframe; [done|]. by eapply lookup_lt_Some.
  - intros route ->. destruct (remove_first 0 nodes) as [U|]; [|done].
    destruct (nearest_order (S (length U)) graph 0 U) as [mid|e]; [|done].
    destruct Hres as [[= ->] Hroute]. split; [|by rewrite Hroute].
    apply lookup_ge_None. lia.
Qed.

Lemma get_greedy_route_fresh_route_witness :
  (forall r l, [[0; 1; 3]] !! r = Some l ->
     (get_greedy_route unit_square_graph 0 [[0; 1; 3]]).2 !! r = Some l) /\
  (forall route, (get_greedy_route unit_square_graph 0 [[0; 1; 3]]).1 = Ok route ->
     [[0; 1; 3]] !! route = None /\
     is_Some ((get_greedy_route unit_square_graph 0 [[0; 1; 3]]).2 !! route)).
Proof.
  apply (get_greedy_route_fresh_route unit_square_graph [[0; 1; 3]] 0 [0; 1; 3]).
  reflexivity.
Defined.

(** * Floats that are not negative *)

Lemma not_negative_sf x : not_negative x <-> sf_not_negative (Prim2SF x).
Proof.
  unfold not_negative. rewrite FloatAxioms.ltb_spec.
  change (Prim2SF PrimFloat.zero) with (S754_zero false). unfold SFltb.
  destruct (Prim2SF x) as [[]|[]| |[] m e]; cbn; split; done.
Qed.

Lemma binary_round_aux_not_negative mx ex lx :
  sf_not_negative (binary_round_aux prec emax false mx ex lx).
Proof.
  unfold binary_round_aux.
  destruct (shr_fexp prec emax mx ex lx) as [mrs' e'].
  destruct (shr_fexp prec emax _ e' loc_Exact) as [mrs'' e''].
  destruct (shr_m mrs''); [done| |done].
  by destruct (Z.leb e'' (Z.sub emax prec)).
Qed.

Lemma sqrt_not_negative x : not_negative (PrimFloat.sqrt x).
Proof.
  apply not_negative_sf. rewrite sqrt_spec. unfold SF64sqrt, SFsqrt.
  destruct (Prim2SF x) as [[]|[]| |[] m e]; try done.
  destruct (SFsqrt_core_binary prec emax (Z.pos m) e) as [[mz ez] lz].
  apply binary_round_aux_not_negative.
Qed.

Lemma add_not_negative x y :
  not_negative x -> not_negative y -> not_negative (PrimFloat.add x y).
Proof.
  rewrite !not_negative_sf, add_spec. unfold SF64add, SFadd.
  destruct (Prim2SF x) as [[]|[]| |[] m1 e1], (Prim2SF y) as [[]|[]| |[] m2 e2];
    cbn [sf_not_negative]; try done.
  intros _ _. cbn [cond_Zopp].
  set (a := (shl_align m1 e1 (Z.min e1 e2)).1).
  set (b := (shl_align m2 e2 (Z.min e1 e2)).1).
  change (Z.add (Z.pos a) (Z.pos b)) with (Z.pos (a + b)).
  cbn [binary_normalize]. unfold binary_round.
  destruct (shl_align (a + b) _ _) as [mz ez]. apply binary_round_aux_not_negative.
Qed.

Lemma mul_100_not_negative x :
  not_negative x -> not_negative (PrimFloat.mul x 100%float).
Proof.
  rewrite !not_negative_sf, mul_spec.
  destruct (Prim2SF 100%float) as [| | |s m e] eqn:H100; try (vm_compute in H100; discriminate).
  assert (s = false) as -> by (vm_compute in H100; congruence).
  unfold SF64mul, SFmul.
  destruct (Prim2SF x) as [[]|[]| |[] m1 e1]; cbn [sf_not_negative xorb]; try done.
  intros _. apply binary_round_aux_not_negative.
Qed.

Lemma math_sqrt_not_negative x r : PyFloat.math_sqrt x = Ok r -> not_negative r.
Proof.
  unfold PyFloat.math_sqrt. destruct (PrimFloat.ltb x PrimFloat.zero); [done|].
  intros [= <-]. apply sqrt_not_negative.
Qed.

Lemma dist_not_negative {libm : Libm} pos u v w : dist pos u v = Ok w -> not_negative w.
Proof.
  unfold dist. intros Hd.
  repeat match type of Hd with
  | (?m ≫= _) = Ok _ => destruct m; cbn [mbind result_bind] in Hd; [|done]
  end.
  by eapply math_sqrt_not_negative.
Qed.

Lemma distance_loop_not_negative g route :
  (forall u v w, weight g u v = Ok w -> not_negative w) ->
  forall indices total d,
    not_negative total -> distance_loop g route indices total = Ok d -> not_negative d.
Proof.
  intros Hw. induction indices as [|i rest IH]; intros total d Htot; cbn [distance_loop].
  - by intros [= <-].
  - destruct (index route i) as [u|]; cbn [mbind result_bind]; [|done].
    destruct (index route (i + 1)) as [v|]; cbn [mbind result_bind]; [|done].
    destruct (weight g u v) as [w|] eqn:Huv; cbn [mbind result_bind]; [|done].
    apply IH. apply add_not_negative; [done|by eapply Hw].
Qed.

Lemma calculate_route_distance_not_negative g route d :
  (forall u v w, weight g u v = Ok w -> not_negative w) ->
  calculate_route_distance g route = Ok d -> not_negative d.
Proof.
  intros Hw. unfold calculate_route_distance.
  destruct (distance_loop g route _ PrimFloat.zero) as [total|] eqn:Hloop;
    cbn [mbind result_bind]; [|done].
  intros [= <-]. apply mul_100_not_negative.
  eapply distance_loop_not_negative; [exact Hw| |exact Hloop]. reflexivity.
Qed.

(** * More on the graph that [G] builds *)

Lemma assign_weights_Ok_dist {libm : Libm} pos es : forall g g' u v,
  assign_weights pos es g = Ok g' -> (u, v) ∈ es -> exists w, dist pos u v = Ok w.
Proof.
  intros g g' u v Hrun Hin. destruct (dist pos u v) as [w|e] eqn:Hd; [by exists w|].
  destruct (assign_weights_raises pos es g u v e Hin Hd) as [e' He']. congruence.
Qed.

Lemma G_Ok_defined {libm : Libm} num_bins pos g :
  G num_bins pos = Ok g -> distances_defined num_bins pos.
Proof.
  intros HG u v Huv Hvn. eapply assign_weights_Ok_dist; [exact HG|].
  apply elem_of_combinations. lia.
Qed.

Lemma G_weight_inside {libm : Libm} num_bins pos g u v :
  G num_bins pos = Ok g -> u < num_bins -> v < num_bins -> u <> v ->
  exists w, weight g u v = Ok w /\ dist pos (u `min` v) (u `max` v) = Ok w.
Proof.
  intros HG Hu Hv Hne. pose proof (G_Ok_defined _ _ _ HG) as Hdef.
  destruct (G_spec num_bins pos Hdef) as (g' & HG' & _ & Hw).
  rewrite HG in HG'. injection HG' as <-.
  destruct (decide (u < v)) as [Hlt|Hge].
  - destruct (Hdef u v Hlt Hv) as [w Hd]. exists w.
    rewrite Nat.min_l, Nat.max_r by lia. destruct (Hw u v Hlt Hv) as [-> _]. done.
  - assert (Hlt : v < u) by lia. destruct (Hdef v u Hlt Hu) as [w Hd]. exists w.
    rewrite Nat.min_r, Nat.max_l by lia. destruct (Hw v u Hlt Hu) as [_ ->]. done.
Qed.

Lemma G_weight_outside {libm : Libm} num_bins pos g u v :
  G num_bins pos = Ok g -> u = v \/ num_bins <= u \/ num_bins <= v ->
  weight g u v = Raise KeyError.
Proof.
  intros HG Hout. apply assign_weights_adj in HG.
  destruct (complete_graph_spec num_bins) as [_ Hdom].
  unfold weight. rewrite edge_data_ref. unfold edge_ref. rewrite HG.
  change (adj (complete_graph num_bins) !! u ≫= (.!! v))
    with (edge_ref (complete_graph num_bins) u v).
  destruct (edge_ref (complete_graph num_bins) u v) as [d|] eqn:Hd; [|done].
  assert (Hs : is_Some (edge_ref (complete_graph num_bins) u v)) by (by rewrite Hd).
  apply Hdom in Hs. lia.
Qed.

Lemma adj_add_node u g a :
  is_Some (adj (add_node u g) !! a) <-> a = u \/ is_Some (adj g !! a).
Proof.
  unfold add_node. destruct (adj g !! u) as [nbrs|] eqn:Hu.
  - split; [by right|]. intros [->|H]; [by rewrite Hu|done].
  - cbn [adj]. destruct (decide (a = u)) as [->|Hne].
    + rewrite lookup_insert_eq. split; [by left|done].
    + rewrite lookup_insert_ne by done. split; [by right|]. intros [?|?]; done.
Qed.

Lemma adj_add_edge g u v a :
  is_Some (adj (add_edge g (u, v)) !! a) <-> a = u \/ a = v \/ is_Some (adj g !! a).
Proof.
  unfold add_edge. set (g' := add_node v (add_node u g)).
  assert (Hg' : is_Some (adj g' !! a) <-> a = u \/ a = v \/ is_Some (adj g !! a)).
  { unfold g'. rewrite !adj_add_node. tauto. }
  destruct (edge_ref g' u v) as [d|]; cbn [adj].
  all: destruct (decide (a = v)) as [->|Hav];
    [rewrite lookup_insert_eq; split; [tauto|done]|];
    rewrite lookup_insert_ne by done;
    destruct (decide (a = u)) as [->|Hau];
    [rewrite lookup_insert_eq; split; [tauto|done]|];
    rewrite lookup_insert_ne by done; exact Hg'.
Qed.

Lemma adj_empty_graph n a : is_Some (adj (empty_graph n) !! a) <-> a < n.
Proof.
  unfold empty_graph.
  assert (Hgen : forall l g, is_Some (adj (foldl (fun g u => add_node u g) g l) !! a) <->
            a ∈ l \/ is_Some (adj g !! a)).
  { induction l as [|u l IH]; intros g; cbn [foldl].
    - split; [by right|]. intros [H|H]; [by apply elem_of_nil in H|done].
    - rewrite IH, adj_add_node, elem_of_cons. tauto. }
  rewrite Hgen, elem_of_seq. cbn [adj]. rewrite lookup_empty. split.
  - intros [?|[? [=]]]. lia.
  - intros ?. left. lia.
Qed.

Lemma adj_complete_graph n a : is_Some (adj (complete_graph n) !! a) <-> a < n.
Proof.
  unfold complete_graph.
  assert (Hgen : forall es g, is_Some (adj (foldl add_edge g es) !! a) <->
            (exists u v, (u, v) ∈ es /\ (a = u \/ a = v)) \/ is_Some (adj g !! a)).
  { induction es as [|[u v] es IH]; intros g; cbn [foldl].
    - split; [by right|]. intros [(u & v & H & _)|H]; [by apply elem_of_nil in H|done].
    - rewrite IH, adj_add_edge. split.
      + intros [(u' & v' & Hin & Ha)|[->|[->|H]]].
        * left. exists u', v'. split; [by apply list_elem_of_further|done].
        * left. exists u, v. split; [apply list_elem_of_here|by left].
        * left. exists u, v. split; [apply list_elem_of_here|by right].
        * by right.
      + intros [(u' & v' & Hin & Ha)|H]; [|tauto].
        apply elem_of_cons in Hin as [[= -> ->]|Hin]; [tauto|].
        left. by exists u', v'. }
  rewrite Hgen, adj_empty_graph. split; [|by right].
  intros [(u & v & Hin%elem_of_combinations & Ha)|H]; lia.
Qed.

(** X7: [G] succeeds exactly when line 49 raises nothing on every pair
    [u < v < num_bins]; in particular it always succeeds for fewer than two
    locations, where it never reads [pos]. *)
Theorem G_succeeds_iff {libm : Libm} (num_bins : nat) (pos : gmap nat (list float)) :
  ((exists g, G num_bins pos = Ok g) <-> distances_defined num_bins pos) /\
  (num_bins <= 1 -> exists g, G num_bins pos = Ok g).
Proof.
  assert (Hiff : (exists g, G num_bins pos = Ok g) <-> distances_defined num_bins pos).
  { split.
    - intros [g HG]. by eapply G_Ok_defined.
    - intros Hdef. destruct (G_spec num_bins pos Hdef) as (g & HG & _). by exists g. }
  split; [done|]. intros Hn. apply Hiff. intros u v Huv Hvn. lia.
Qed.

(** X8: the nodes of the graph that [G] returns are exactly [0 .. num_bins-1];
    reading the weight of a self-loop, or of a pair with a node outside that
    range, raises [KeyError]. *)
Theorem G_nodes_and_missing_edges {libm : Libm} (num_bins : nat) (pos : gmap nat (list float))
    (g : Graph) :
  G num_bins pos = Ok g ->
  (forall u, is_Some (adj g !! u) <-> u < num_bins) /\
  (forall u v, u = v \/ num_bins <= u \/ num_bins <= v ->
     weight g u v = Raise KeyError).
Proof.
  intros HG. split.
  - intros u. rewrite (assign_weights_adj _ _ _ _ HG). apply adj_complete_graph.
  - intros u v Hout. by apply (G_weight_outside num_bins pos).
Qed.

Lemma G_nodes_and_missing_edges_witness :
  (forall u, is_Some (adj unit_square_graph !! u) <-> u < 5) /\
  (forall u v, u = v \/ 5 <= u \/ 5 <= v ->
     weight unit_square_graph u v = Raise KeyError).
Proof.
  apply (@G_nodes_and_missing_edges exact_libm 5 unit_square unit_square_graph).
  vm_compute. reflexivity.
Defined.

(** X9: no weight that [G] stores is negative: [w < 0] is false for every weight
    read from the graph. *)
Theorem G_weights_not_negative {libm : Libm} (num_bins : nat) (pos : gmap nat (list float))
    (g : Graph) (u v : nat) (w : float) :
  G num_bins pos = Ok g -> weight g u v = Ok w ->
  PrimFloat.ltb w PrimFloat.zero = false.
Proof.
  intros HG Huv.
  destruct (decide (u = v \/ num_bins <= u \/ num_bins <= v)) as [Hout|Hin].
  - rewrite (G_weight_outside _ _ _ _ _ HG Hout) in Huv. discriminate.
  - destruct (G_weight_inside num_bins pos g u v HG) as (w' & Hw' & Hd); [lia..|].
    rewrite Huv in Hw'. injection Hw' as <-. by eapply dist_not_negative.
Qed.

Lemma G_weights_not_negative_witness :
  PrimFloat.ltb 0x1.6a09e667f3bcdp+0%float PrimFloat.zero = false.
Proof.
  apply (@G_weights_not_negative exact_libm 5 unit_square unit_square_graph 1 3
           0x1.6a09e667f3bcdp+0%float); vm_compute; reflexivity.
Defined.

(** * When the route distances are defined *)

Lemma G_weight_not_negative {libm : Libm} num_bins pos g u v w :
  G num_bins pos = Ok g -> weight g u v = Ok w -> not_negative w.
Proof.
  intros HG Huv.
  destruct (decide (u = v \/ num_bins <= u \/ num_bins <= v)) as [Hout|Hin].
  - rewrite (G_weight_outside _ _ _ _ _ HG Hout) in Huv. discriminate.
  - destruct (G_weight_inside num_bins pos g u v HG) as (w' & Hw' & Hd); [lia..|].
    rewrite Huv in Hw'. injection Hw' as <-. by eapply dist_not_negative.
Qed.

Lemma consecutive_pairs_cons a b l :
  consecutive_pairs (a :: b :: l) = (a, b) :: consecutive_pairs (b :: l).
Proof. reflexivity. Qed.

Lemma elem_of_consecutive_pairs l u v :
  (u, v) ∈ consecutive_pairs l <-> exists i, l !! i = Some u /\ l !! S i = Some v.
Proof.
  induction l as [|a l IH].
  - split; [intros H; by apply elem_of_nil in H|]. by intros (i & [=] & _).
  - destruct l as [|b l].
    + split; [intros H; by apply elem_of_nil in H|]. by intros (i & _ & [=]).
    + rewrite consecutive_pairs_cons, elem_of_cons, IH. split.
      * intros [[= -> ->]|(i & H1 & H2)]; [by exists 0|by exists (S i)].
      * intros ([|i] & H1 & H2); [left; cbn in *; congruence|right; by exists i].
Qed.

Lemma length_consecutive_pairs l : length (consecutive_pairs l) = length l - 1.
Proof.
  unfold consecutive_pairs. rewrite length_zip. destruct l; cbn [tail length]; lia.
Qed.

Lemma path_edges_consecutive route : path_edges route = consecutive_pairs route.
Proof. unfold path_edges, consecutive_pairs. by destruct route. Qed.

Lemma pair_weights_defined g pairs :
  (forall u v, (u, v) ∈ pairs -> exists w, weight g u v = Ok w) ->
  exists ws, pair_weights g pairs = Ok ws.
Proof.
  induction pairs as [|[u v] pairs IH]; intros Hw; cbn [pair_weights]; [by eexists|].
  destruct (Hw u v) as [w Hw1]; [apply list_elem_of_here|]. rewrite Hw1.
  destruct IH as [ws Hws]; [intros; apply Hw; by apply list_elem_of_further|].
  rewrite Hws. by eexists.
Qed.

Lemma calculate_route_distance_defined g route :
  (forall u v, (u, v) ∈ consecutive_pairs route -> exists w, weight g u v = Ok w) ->
  exists d, calculate_route_distance g route = Ok d.
Proof.
  intros Hw. destruct (pair_weights_defined g _ Hw) as [ws Hws].
  unfold calculate_route_distance.
  pose proof (distance_loop_pairs g route [] PrimFloat.zero) as Hloop.
  cbn [app length] in Hloop. rewrite Hloop, Hws. by eexists.
Qed.

Lemma static_route_pairs num_bins u v :
  2 <= num_bins -> (u, v) ∈ consecutive_pairs (static_route num_bins) ->
  u < num_bins /\ v < num_bins /\ u <> v.
Proof.
  intros Hn (i & Hu & Hv)%elem_of_consecutive_pairs. unfold static_route in *.
  assert (Hi : S i <= num_bins).
  { apply lookup_lt_Some in Hv. rewrite length_app, length_seq in Hv. cbn in Hv. lia. }
  rewrite lookup_app_l in Hu by (rewrite length_seq; lia).
  apply lookup_seq in Hu as [-> _].
  destruct (decide (S i < num_bins)) as [Hlt|Hge].
  - rewrite lookup_app_l in Hv by (rewrite length_seq; lia).
    apply lookup_seq in Hv as [-> _]. lia.
  - rewrite lookup_app_r in Hv by (rewrite length_seq; lia).
    rewrite length_seq in Hv. replace (S i - num_bins) with 0 in Hv by lia.
    injection Hv as <-. lia.
Qed.

Lemma closed_route_pairs mid u v :
  NoDup (0 :: mid) -> mid <> [] ->
  (u, v) ∈ consecutive_pairs (0 :: mid ++ [0]) ->
  u ∈ 0 :: mid /\ v ∈ 0 :: mid /\ u <> v.
Proof.
  intros Hnd Hne (i & Hu & Hv)%elem_of_consecutive_pairs.
  change (0 :: mid ++ [0]) with ((0 :: mid) ++ [0]) in Hu, Hv.
  assert (Hi : S i <= length (0 :: mid)).
  { apply lookup_lt_Some in Hv. rewrite length_app in Hv. cbn in *. lia. }
  rewrite lookup_app_l in Hu by lia.
  destruct (decide (S i < length (0 :: mid))) as [Hlt|Hge].
  - rewrite lookup_app_l in Hv by done. split_and!.
    + by eapply list_elem_of_lookup_2.
    + by eapply list_elem_of_lookup_2.
    + intros ->. pose proof (NoDup_lookup _ _ _ _ Hnd Hu Hv). lia.
  - rewrite lookup_app_r in Hv by lia.
    replace (S i - length (0 :: mid)) with 0 in Hv by lia. injection Hv as <-.
    destruct i as [|i]; [destruct mid; [done|cbn in *; lia]|].
    cbn in Hu. apply list_elem_of_lookup_2 in Hu. split_and!.
    + by apply list_elem_of_further.
    + apply list_elem_of_here.
    + intros ->. by apply NoDup_cons in Hnd as [? _].
Qed.

(** X10: the static distance is defined and not negative as soon as there are two
    locations: every step of the static route joins two different nodes of
    the graph. *)
Theorem static_distance_defined {libm : Libm} (num_bins : nat) (pos : gmap nat (list float))
    (g : Graph) :
  G num_bins pos = Ok g -> 2 <= num_bins ->
  exists d, calculate_route_distance g (static_route num_bins) = Ok d /\
            PrimFloat.ltb d PrimFloat.zero = false.
Proof.
  intros HG Hn.
  destruct (calculate_route_distance_defined g (static_route num_bins)) as [d Hd].
  - intros u v (Hu & Hv & Hne)%static_route_pairs; [|done].
    destruct (G_weight_inside num_bins pos g u v HG Hu Hv Hne) as (w & Hw & _).
    by exists w.
  - exists d. split; [done|].
    eapply calculate_route_distance_not_negative; [|exact Hd].
    intros u v w Hw. by eapply (G_weight_not_negative num_bins pos g).
Qed.

Lemma static_distance_defined_witness :
  exists d, calculate_route_distance unit_square_graph (static_route 5) = Ok d /\
            PrimFloat.ltb d PrimFloat.zero = false.
Proof.
  apply (@static_distance_defined exact_libm 5 unit_square unit_square_graph).
  - vm_compute. reflexivity.
  - lia.
Defined.

Lemma pipeline_route {libm : Libm} num_bins pos g randint T :
  G num_bins pos = Ok g ->
  exists mid,
    dynamic_route g (critical_bins (node_fill_levels num_bins randint) T)
      = Ok (0 :: mid ++ [0]) /\
    mid ≡ₚ filter (fun i => (T < randint i)%Z) (seq 1 (num_bins - 1)) /\
    NoDup (0 :: mid).
Proof.
  intros HG. rewrite critical_bins_pipeline, dynamic_route_run.
  set (rest := filter (fun i => (T < randint i)%Z) (seq 1 (num_bins - 1))).
  cbn [remove_first]. rewrite decide_True by done.
  assert (Hrest : forall x, x ∈ rest -> 1 <= x /\ x < num_bins).
  { intros x [_ Hx%elem_of_seq]%list_elem_of_filter. lia. }
  assert (Hnd : NoDup (0 :: rest)).
  { apply NoDup_cons. split.
    - intros H0%Hrest. lia.
    - apply NoDup_filter, NoDup_seq. }
  destruct (nearest_order_perm (S (length rest)) g 0 rest) as (mid & Hmid & Hp);
    [lia|done| |].
  { intros u v Hu Hv Hne.
    assert (Hb : forall x, x ∈ 0 :: rest -> x = 0 \/ (1 <= x /\ x < num_bins)).
    { intros x [->|Hx]%elem_of_cons; [by left|right; by apply Hrest]. }
    destruct (Hb u Hu), (Hb v Hv);
      destruct (G_weight_inside num_bins pos g u v HG) as (w & Hw & _);
      (lia || by exists w). }
  exists mid. rewrite Hmid. cbn [mbind result_bind]. split_and!; [done|done|].
  by rewrite Hp.
Qed.

Lemma pipeline_route_distance {libm : Libm} num_bins pos g mid :
  G num_bins pos = Ok g -> NoDup (0 :: mid) -> mid <> [] ->
  (forall x, x ∈ mid -> x < num_bins) ->
  (forall u v, (u, v) ∈ consecutive_pairs (0 :: mid ++ [0]) ->
     exists w, weight g u v = Ok w) /\
  exists d, calculate_route_distance g (0 :: mid ++ [0]) = Ok d /\ not_negative d.
Proof.
  intros HG Hnd Hne Hb.
  assert (Hn : 0 < num_bins).
  { destruct mid as [|x mid]; [done|]. specialize (Hb x (list_elem_of_here _ _)). lia. }
  assert (Hw : forall u v, (u, v) ∈ consecutive_pairs (0 :: mid ++ [0]) ->
            exists w, weight g u v = Ok w).
  { intros u v (Hu & Hv & Huv)%closed_route_pairs; [|done..].
    assert (Hb' : forall x, x ∈ 0 :: mid -> x < num_bins).
    { intros x [->|Hx]%elem_of_cons; [done|by apply Hb]. }
    destruct (G_weight_inside num_bins pos g u v HG) as (w & Hw & _); [auto..|].
    by exists w. }
  split; [done|].
  destruct (calculate_route_distance_defined g _ Hw) as [d Hd].
  exists d. split; [done|].
  eapply calculate_route_distance_not_negative; [|exact Hd].
  intros u v w Huv. by eapply (G_weight_not_negative num_bins pos g).
Qed.

Lemma filter_above_nonempty (randint : nat -> Z) T num_bins :
  (exists i, 1 <= i /\ i < num_bins /\ (T < randint i)%Z) ->
  filter (fun i => (T < randint i)%Z) (seq 1 (num_bins - 1)) <> [].
Proof.
  intros (i & Hi1 & Hi2 & HT) Hnil.
  assert (Hin : i ∈ filter (fun i => (T < randint i)%Z) (seq 1 (num_bins - 1))).
  { apply list_elem_of_filter. split; [done|]. apply elem_of_seq. lia. }
  rewrite Hnil in Hin. by apply elem_of_nil in Hin.
Qed.

(** X11: with at least one bin above the threshold, the planner returns a route
    with one entry more than the critical list, and the distance of that
    route is defined and not negative. *)
Theorem dynamic_distance_defined {libm : Libm} (num_bins : nat) (pos : gmap nat (list float))
    (g : Graph) (randint : nat -> Z) (fill_threshold : Z) :
  G num_bins pos = Ok g ->
  (exists i, 1 <= i /\ i < num_bins /\ (fill_threshold < randint i)%Z) ->
  exists route d,
    dynamic_route g (critical_bins (node_fill_levels num_bins randint) fill_threshold)
      = Ok route /\
    length route =
      S (length (critical_bins (node_fill_levels num_bins randint) fill_threshold)) /\
    calculate_route_distance g route = Ok d /\
    PrimFloat.ltb d PrimFloat.zero = false.
Proof.
  intros HG Hex. destruct (pipeline_route num_bins pos g randint fill_threshold HG)
    as (mid & Hroute & Hp & Hnd).
  assert (Hne : mid <> []).
  { intros ->. apply Permutation_nil_l in Hp. symmetry in Hp.
    by apply filter_above_nonempty in Hex. }
  destruct (pipeline_route_distance num_bins pos g mid HG Hnd Hne) as [_ (d & Hd & Hdn)].
  { intros x Hx. rewrite Hp in Hx. apply list_elem_of_filter in Hx as [_ Hx%elem_of_seq]. lia. }
  exists (0 :: mid ++ [0]), d. split_and!; [done| |done|done].
  rewrite critical_bins_pipeline. cbn [length]. rewrite length_app, Hp. cbn. lia.
Qed.

Lemma dynamic_distance_defined_witness :
  exists route d,
    dynamic_route unit_square_graph (critical_bins (node_fill_levels 5 scenario_fills) 75)
      = Ok route /\
    length route = S (length (critical_bins (node_fill_levels 5 scenario_fills) 75)) /\
    calculate_route_distance unit_square_graph route = Ok d /\
    PrimFloat.ltb d PrimFloat.zero = false.
Proof.
  apply (@dynamic_distance_defined exact_libm 5 unit_square unit_square_graph scenario_fills 75).
  - vm_compute. reflexivity.
  - exists 1. cbn. lia.
Defined.

(** X12: with at least one bin above the threshold, the edges drawn as the blue
    path (line 139) are as many as the critical nodes, and each joins two
    different critical nodes along an edge of the graph. *)
Theorem path_edges_of_dynamic_route {libm : Libm} (num_bins : nat) (pos : gmap nat (list float))
    (g : Graph) (randint : nat -> Z) (fill_threshold : Z) :
  G num_bins pos = Ok g ->
  (exists i, 1 <= i /\ i < num_bins /\ (fill_threshold < randint i)%Z) ->
  exists route,
    dynamic_route g (critical_bins (node_fill_levels num_bins randint) fill_threshold)
      = Ok route /\
    length (path_edges route) =
      length (critical_bins (node_fill_levels num_bins randint) fill_threshold) /\
    forall u v, (u, v) ∈ path_edges route ->
      u ∈ critical_bins (node_fill_levels num_bins randint) fill_threshold /\
      v ∈ critical_bins (node_fill_levels num_bins randint) fill_threshold /\
      u <> v /\ exists w, weight g u v = Ok w.
Proof.
  intros HG Hex. destruct (pipeline_route num_bins pos g randint fill_threshold HG)
    as (mid & Hroute & Hp & Hnd).
  assert (Hne : mid <> []).
  { intros ->. apply Permutation_nil_l in Hp. symmetry in Hp.
    by apply filter_above_nonempty in Hex. }
  destruct (pipeline_route_distance num_bins pos g mid HG Hnd Hne) as [Hw _].
  { intros x Hx. rewrite Hp in Hx. apply list_elem_of_filter in Hx as [_ Hx%elem_of_seq]. lia. }
  exists (0 :: mid ++ [0]). rewrite path_edges_consecutive.
  rewrite critical_bins_pipeline in Hroute |- *.
  split_and!; [done| |].
  - rewrite length_consecutive_pairs. cbn [length]. rewrite length_app, Hp. cbn. lia.
  - intros u v Huv. destruct (closed_route_pairs mid u v Hnd Hne Huv) as (Hu & Hv & Hneq).
    rewrite <- Hp. split_and!; [done|done|done|by apply Hw].
Qed.

Lemma path_edges_of_dynamic_route_witness :
  exists route,
    dynamic_route unit_square_graph (critical_bins (node_fill_levels 5 scenario_fills) 75)
      = Ok route /\
    length (path_edges route) =
      length (critical_bins (node_fill_levels 5 scenario_fills) 75) /\
    forall u v, (u, v) ∈ path_edges route ->
      u ∈ critical_bins (node_fill_levels 5 scenario_fills) 75 /\
      v ∈ critical_bins (node_fill_levels 5 scenario_fills) 75 /\
      u <> v /\ exists w, weight unit_square_graph u v = Ok w.
Proof.
  apply (@path_edges_of_dynamic_route exact_libm 5 unit_square unit_square_graph scenario_fills 75).
  - vm_compute. reflexivity.
  - exists 1. cbn. lia.
Defined.

(** * The whole run *)

Lemma static_route_distance_aux {libm : Libm} num_bins pos g :
  G num_bins pos = Ok g -> 2 <= num_bins ->
  exists d, calculate_route_distance g (static_route num_bins) = Ok d.
Proof.
  intros HG Hn. apply calculate_route_distance_defined.
  intros u v (Hu & Hv & Hne)%static_route_pairs; [|done].
  destruct (G_weight_inside num_bins pos g u v HG Hu Hv Hne) as (w & Hw & _).
  by exists w.
Qed.

Lemma efficiency_saving_defined s d : exists r, efficiency_saving s d = Ok r.
Proof.
  unfold efficiency_saving, PyFloat.truediv.
  destruct (PrimFloat.ltb PrimFloat.zero s) eqn:H; [|by eexists].
  rewrite (ltb_zero_eqb_zero _ H). by eexists.
Qed.

Lemma critical_bins_no_bin_above num_bins randint T :
  (forall i, 1 <= i -> i < num_bins -> (randint i <= T)%Z) ->
  critical_bins (node_fill_levels num_bins randint) T = [0].
Proof.
  intros Hle. rewrite critical_bins_pipeline. f_equal.
  destruct (filter _ _) as [|x l] eqn:Hf; [done|].
  assert (Hx : x ∈ filter (fun i => (T < randint i)%Z) (seq 1 (num_bins - 1)))
    by (rewrite Hf; apply list_elem_of_here).
  apply list_elem_of_filter in Hx as [HT Hx%elem_of_seq].
  specialize (Hle x). lia.
Qed.

(** X13: with two locations or more and distances that line 49 can compute, the
    run of lines 46-109 succeeds exactly when some bin is above the
    threshold; when none is, it raises [KeyError]. *)
Theorem simulation_succeeds_iff {libm : Libm} (num_bins : nat) (pos : gmap nat (list float))
    (randint : nat -> Z) (fill_threshold : Z) :
  2 <= num_bins -> distances_defined num_bins pos ->
  ((exists r, simulation num_bins pos randint fill_threshold = Ok r) <->
   (exists i, 1 <= i /\ i < num_bins /\ (fill_threshold < randint i)%Z)) /\
  ((forall i, 1 <= i -> i < num_bins -> (randint i <= fill_threshold)%Z) ->
   simulation num_bins pos randint fill_threshold = Raise KeyError).
Proof.
  intros Hn Hdef. destruct (G_spec num_bins pos Hdef) as (g & HG & _).
  destruct (static_route_distance_aux num_bins pos g HG Hn) as (ds & Hds).
  assert (Hnone : (forall i, 1 <= i -> i < num_bins -> (randint i <= fill_threshold)%Z) ->
            simulation num_bins pos randint fill_threshold = Raise KeyError).
  { intros Hle. unfold simulation. rewrite HG. cbn [mbind result_bind].
    rewrite Hds. cbn [mbind result_bind].
    rewrite (critical_bins_no_bin_above _ _ _ Hle).
    change (dynamic_route g [0]) with (@Ok (list nat) [0; 0]). cbn [mbind result_bind].
    unfold calculate_route_distance. cbn [length Nat.sub seq distance_loop].
    change (index [0; 0] 0) with (Ok 0). change (index [0; 0] (0 + 1)) with (Ok 0).
    cbn [mbind result_bind].
    by rewrite (G_weight_outside num_bins pos g 0 0 HG (or_introl eq_refl)). }
  split; [|done]. split.
  - intros [r Hr].
    destruct (decide (Exists (fun i => (fill_threshold < randint i)%Z)
                             (seq 1 (num_bins - 1)))) as [Hex|Hex].
    + apply Exists_exists in Hex as (i & Hi%elem_of_seq & HT). exists i. lia.
    + rewrite Hnone in Hr; [done|]. intros i Hi1 Hi2.
      destruct (decide (randint i <= fill_threshold)%Z) as [|Hgt]; [done|].
      destruct Hex. apply Exists_exists. exists i. split; [apply elem_of_seq|]; lia.
  - intros Hex.
    destruct (pipeline_route num_bins pos g randint fill_threshold HG)
      as (mid & Hroute & Hp & Hnd).
    assert (Hne : mid <> []).
    { intros ->. apply Permutation_nil_l in Hp. symmetry in Hp.
      by apply filter_above_nonempty in Hex. }
    destruct (pipeline_route_distance num_bins pos g mid HG Hnd Hne) as [_ (dd & Hdd & _)].
    { intros x Hx. rewrite Hp in Hx.
      apply list_elem_of_filter in Hx as [_ Hx%elem_of_seq]. lia. }
    destruct (efficiency_saving_defined ds dd) as [s Hs].
    exists (ds, dd, s). unfold simulation. rewrite HG. cbn [mbind result_bind].
    rewrite Hds. cbn [mbind result_bind]. rewrite Hroute. cbn [mbind result_bind].
    rewrite Hdd. cbn [mbind result_bind]. by rewrite Hs.
Qed.

Lemma simulation_succeeds_iff_witness :
  ((exists r, @simulation exact_libm 5 unit_square scenario_fills 75 = Ok r) <->
   (exists i, 1 <= i /\ i < 5 /\ (75 < scenario_fills i)%Z)) /\
  ((forall i, 1 <= i -> i < 5 -> (scenario_fills i <= 75)%Z) ->
   @simulation exact_libm 5 unit_square scenario_fills 75 = Raise KeyError).
Proof.
  apply (@simulation_succeeds_iff exact_libm 5 unit_square scenario_fills 75).
  - lia.
  - apply (@distances_definedb_sound exact_libm). vm_compute. reflexivity.
Defined.

(** * The dashboard data *)

Lemma elem_of_critical_pipeline num_bins randint T i :
  i ∈ critical_bins (node_fill_levels num_bins randint) T <->
  i = 0 \/ (1 <= i /\ i < num_bins /\ (T < randint i)%Z).
Proof.
  rewrite critical_bins_pipeline, elem_of_cons, list_elem_of_filter, elem_of_seq.
  split; intros [?|?]; (by left) || (right; lia).
Qed.

Lemma dict_getitem_pipeline num_bins randint i :
  i < num_bins ->
  dict_getitem (node_fill_levels num_bins randint) i =
    Ok (if i =? 0 then 0%Z else randint i).
Proof.
  intros Hi. unfold dict_getitem. rewrite node_fill_levels_items. cbn [dict_get].
  destruct (Nat.eqb_spec i 0) as [->|Hne]; [by rewrite decide_True|].
  rewrite decide_False by lia. rewrite dict_get_fmap_seq, decide_True by lia. done.
Qed.

(** X14: the node colours (lines 126-133) follow the fill levels: one colour per
    bin, blue for the depot, red for a bin above the threshold and green for
    any other bin. *)
Theorem node_colors_spec (num_bins : nat) (randint : nat -> Z) (fill_threshold : Z) :
  length (node_colors num_bins
            (critical_bins (node_fill_levels num_bins randint) fill_threshold))
    = num_bins /\
  forall i, i < num_bins ->
    node_colors num_bins
      (critical_bins (node_fill_levels num_bins randint) fill_threshold) !! i =
    Some (if i =? 0 then "blue"%string
          else if (fill_threshold <? randint i)%Z then "red"%string
          else "green"%string).
Proof.
  unfold node_colors. split; [by rewrite length_fmap, length_seq|].
  intros i Hi. rewrite list_lookup_fmap, lookup_seq_lt by done. cbn [fmap option_fmap option_map Nat.add].
  f_equal. destruct (Nat.eqb_spec i 0) as [->|Hne]; [done|].
  destruct (Z.ltb_spec fill_threshold (randint i)) as [HT|HT].
  - rewrite bool_decide_eq_true_2; [done|]. apply elem_of_critical_pipeline. right. lia.
  - rewrite bool_decide_eq_false_2; [done|].
    intros [?|?]%elem_of_critical_pipeline; lia.
Qed.

Lemma status_loop_rows fills critical route (f : nat -> Z) : forall nodes acc,
  (forall i, i ∈ nodes -> dict_getitem fills i = Ok (f i)) ->
  status_loop fills critical route nodes acc =
    Ok (acc ++ ((fun node =>
      mkRow node (f node)
        (if node =? 0 then "DEPOT"%string
         else if bool_decide (node ∈ critical) && negb (node =? 0)
              then "CRITICAL"%string else "Normal"%string)
        (if bool_decide (node ∈ route) then "Collect"%string else "Skip"%string))
      <$> nodes)).
Proof.
  induction nodes as [|node nodes IH]; intros acc Hf; cbn [status_loop].
  - by rewrite app_nil_r.
  - rewrite (Hf node) by apply list_elem_of_here. cbn [mbind result_bind].
    rewrite IH by (intros i Hi; apply Hf; by apply list_elem_of_further).
    cbn [fmap list_fmap]. by rewrite <- app_assoc.
Qed.

(** X15: the status table (lines 164-173) built from the planner's route has one
    row per bin, in order, with the bin's fill level; the depot is "DEPOT", a
    bin above the threshold is "CRITICAL" and any other bin "Normal"; the
    action is "Collect" exactly for the depot and the critical bins, "Skip"
    for the others; no lookup of a fill level fails. *)
Theorem status_data_spec {libm : Libm} (num_bins : nat) (pos : gmap nat (list float)) (g : Graph)
    (randint : nat -> Z) (fill_threshold : Z) :
  G num_bins pos = Ok g ->
  exists route rows,
    dynamic_route g (critical_bins (node_fill_levels num_bins randint) fill_threshold)
      = Ok route /\
    status_data num_bins (node_fill_levels num_bins randint)
      (critical_bins (node_fill_levels num_bins randint) fill_threshold) route
      = Ok rows /\
    length rows = num_bins /\
    forall i, i < num_bins ->
      rows !! i =
        Some (mkRow i
                (if i =? 0 then 0%Z else randint i)
                (if i =? 0 then "DEPOT"%string
                 else if (fill_threshold <? randint i)%Z then "CRITICAL"%string
                 else "Normal"%string)
                (if (i =? 0) || (fill_threshold <? randint i)%Z
                 then "Collect"%string else "Skip"%string)).
Proof.
  intros HG. destruct (pipeline_route num_bins pos g randint fill_threshold HG)
    as (mid & Hroute & Hp & Hnd).
  eexists _, _. split; [exact Hroute|]. unfold status_data.
  rewrite (status_loop_rows _ _ _ (fun i => if i =? 0 then 0%Z else randint i))
    by (intros i Hi%elem_of_seq; apply dict_getitem_pipeline; lia).
  split; [reflexivity|]. cbn [app]. split; [by rewrite length_fmap, length_seq|].
  intros i Hi. rewrite list_lookup_fmap, lookup_seq_lt by done.
  cbn [fmap option_fmap option_map Nat.add]. f_equal.
  assert (Hroute_mem : i ∈ 0 :: mid ++ [0] <->
            i = 0 \/ (1 <= i /\ i < num_bins /\ (fill_threshold < randint i)%Z)).
  { rewrite elem_of_cons, elem_of_app, list_elem_of_singleton, Hp,
      list_elem_of_filter, elem_of_seq. split; [intros [?|[?|?]]|intros [?|?]];
      (by left) || (right; lia) || (right; left; split; [lia|lia]). }
  destruct (Nat.eqb_spec i 0) as [->|Hne].
  - cbn [orb]. rewrite (bool_decide_eq_true_2 (0 ∈ 0 :: mid ++ [0])) by apply list_elem_of_here.
    done.
  - cbn [orb negb]. rewrite andb_true_r.
    destruct (Z.ltb_spec fill_threshold (randint i)) as [HT|HT].
    + rewrite bool_decide_eq_true_2
        by (apply elem_of_critical_pipeline; right; lia).
      rewrite bool_decide_eq_true_2 by (apply Hroute_mem; right; lia). done.
    + rewrite bool_decide_eq_false_2
        by (intros [?|?]%elem_of_critical_pipeline; lia).
      rewrite bool_decide_eq_false_2 by (intros [?|?]%Hroute_mem; lia). done.
Qed.

Lemma status_data_spec_witness :
  exists route rows,
    dynamic_route unit_square_graph (critical_bins (node_fill_levels 5 scenario_fills) 75)
      = Ok route /\
    status_data 5 (node_fill_levels 5 scenario_fills)
      (critical_bins (node_fill_levels 5 scenario_fills) 75) route
      = Ok rows /\
    length rows = 5 /\
    forall i, i < 5 ->
      rows !! i =
        Some (mkRow i
                (if i =? 0 then 0%Z else scenario_fills i)
                (if i =? 0 then "DEPOT"%string
                 else if (75 <? scenario_fills i)%Z then "CRITICAL"%string
                 else "Normal"%string)
                (if (i =? 0) || (75 <? scenario_fills i)%Z
                 then "Collect"%string else "Skip"%string)).
Proof.
  apply (@status_data_spec exact_libm 5 unit_square unit_square_graph scenario_fills 75).
  vm_compute. reflexivity.
Defined.

Example status_data_scenario :
  status_data 4 (node_fill_levels 4 scenario_fills) [0; 1; 3] [0; 3; 1; 0] =
    Ok [mkRow 0 0 "DEPOT" "Collect"; mkRow 1 80 "CRITICAL" "Collect";
        mkRow 2 10 "Normal" "Skip"; mkRow 3 99 "CRITICAL" "Collect"].
Proof. vm_compute. reflexivity. Qed.

(** * Routes that cannot be measured *)

Lemma G_weight_cases {libm : Libm} num_bins pos g u v :
  G num_bins pos = Ok g ->
  (u <> v /\ u < num_bins /\ v < num_bins /\ exists w, weight g u v = Ok w) \/
  ((u = v \/ num_bins <= u \/ num_bins <= v) /\ weight g u v = Raise KeyError).
Proof.
  intros HG. destruct (decide (u = v \/ num_bins <= u \/ num_bins <= v)) as [Hout|Hin].
  - right. split; [done|]. by apply (G_weight_outside num_bins pos).
  - left. destruct (G_weight_inside num_bins pos g u v HG) as (w & Hw & _); [lia..|].
    split_and!; [lia..|by exists w].
Qed.

Lemma pair_weights_raises {libm : Libm} num_bins pos g pairs u v :
  G num_bins pos = Ok g -> (u, v) ∈ pairs ->
  u = v \/ num_bins <= u \/ num_bins <= v ->
  pair_weights g pairs = Raise KeyError.
Proof.
  intros HG. induction pairs as [|[a b] pairs IH]; intros Hin Hout.
  - by apply elem_of_nil in Hin.
  - cbn [pair_weights].
    destruct (G_weight_cases num_bins pos g a b HG) as [(_ & _ & _ & w & Hw)|[Hab Hw]];
      rewrite Hw; cbn [mbind result_bind]; [|done].
    apply elem_of_cons in Hin as [[= -> ->]|Hin].
    + pose proof (G_weight_outside num_bins pos g a b HG Hout). congruence.
    + by rewrite (IH Hin Hout).
Qed.

(** X16: on the graph that [G] returns, the distance of a route is defined exactly
    when every step of the route joins two different nodes of
    [0 .. num_bins-1]; a route with a step from a node to itself, or through a
    node outside that range, raises [KeyError]. *)
Theorem calculate_route_distance_defined_iff {libm : Libm} (num_bins : nat)
    (pos : gmap nat (list float)) (g : Graph) (route : list nat) :
  G num_bins pos = Ok g ->
  ((exists d, calculate_route_distance g route = Ok d) <->
   (forall i u v, route !! i = Some u -> route !! S i = Some v ->
      u <> v /\ u < num_bins /\ v < num_bins)) /\
  ((exists i u v, route !! i = Some u /\ route !! S i = Some v /\
      (u = v \/ num_bins <= u \/ num_bins <= v)) ->
   calculate_route_distance g route = Raise KeyError).
Proof.
  intros HG.
  assert (Heq : calculate_route_distance g route =
            ws ← pair_weights g (consecutive_pairs route);
            Ok (PrimFloat.mul (foldl PrimFloat.add PrimFloat.zero ws) 100%float)).
  { unfold calculate_route_distance.
    pose proof (distance_loop_pairs g route [] PrimFloat.zero) as Hloop.
    cbn [app length] in Hloop. rewrite Hloop.
    by destruct (pair_weights g (consecutive_pairs route)). }
  assert (Hbad : (exists i u v, route !! i = Some u /\ route !! S i = Some v /\
                    (u = v \/ num_bins <= u \/ num_bins <= v)) ->
                 calculate_route_distance g route = Raise KeyError).
  { intros (i & u & v & Hu & Hv & Hout). rewrite Heq.
    rewrite (pair_weights_raises num_bins pos g _ u v HG); [done| |done].
    apply elem_of_consecutive_pairs. by exists i. }
  split; [|done]. split.
  - intros [d Hd] i u v Hu Hv.
    destruct (decide (u = v \/ num_bins <= u \/ num_bins <= v)) as [Hout|Hin]; [|lia].
    rewrite Hbad in Hd; [done|]. by exists i, u, v.
  - intros Hall. apply calculate_route_distance_defined.
    intros u v (i & Hu & Hv)%elem_of_consecutive_pairs.
    destruct (Hall i u v Hu Hv) as (Hne & Hun & Hvn).
    destruct (G_weight_inside num_bins pos g u v HG Hun Hvn Hne) as (w & Hw & _).
    by exists w.
Qed.

Lemma calculate_route_distance_defined_iff_witness :
  ((exists d, calculate_route_distance unit_square_graph [0; 2; 2; 0] = Ok d) <->
   (forall i u v, [0; 2; 2; 0] !! i = Some u -> [0; 2; 2; 0] !! S i = Some v ->
      u <> v /\ u < 5 /\ v < 5)) /\
  ((exists i u v, [0; 2; 2; 0] !! i = Some u /\ [0; 2; 2; 0] !! S i = Some v /\
      (u = v \/ 5 <= u \/ 5 <= v)) ->
   calculate_route_distance unit_square_graph [0; 2; 2; 0] = Raise KeyError).
Proof.
  apply (@calculate_route_distance_defined_iff exact_libm 5 unit_square unit_square_graph [0; 2; 2; 0]).
  vm_compute. reflexivity.
Defined.

(** * The size of the graph *)

Lemma NoDup_combinations n : NoDup (combinations n).
Proof.
  unfold combinations. apply NoDup_bind.
  - intros u1 u2 [a b] _ _ (v1 & [= -> ->] & _)%list_elem_of_fmap
      (v2 & [= -> _] & _)%list_elem_of_fmap. done.
  - intros u _. apply NoDup_fmap_2; [|apply NoDup_seq]. by intros v1 v2 [= ->].
  - apply NoDup_seq.
Qed.

Lemma length_combinations_from n : forall k a,
  a + k = n ->
  2 * length (seq a k ≫= fun u => pair u <$> seq (S u) (n - S u)) = k * (k - 1).
Proof.
  induction k as [|k IH]; intros a Hak; [done|].
  cbn [seq]. rewrite bind_cons.
  rewrite length_app, length_fmap, length_seq.
  specialize (IH (S a) ltac:(lia)). nia.
Qed.

Lemma attrs_foldl_add_edge es : forall g,
  NoDup es -> (forall u v, (u, v) ∈ es -> u < v) ->
  (forall u v, (u, v) ∈ es -> edge_ref g u v = None) ->
  length (attrs (foldl add_edge g es)) = length (attrs g) + length es.
Proof.
  induction es as [|[u v] es IH]; intros g Hnd Hlt Hfresh; cbn [foldl length]; [lia|].
  apply NoDup_cons in Hnd as [Hnotin Hnd].
  rewrite IH; [|done| |].
  - rewrite attrs_add_edge, (Hfresh u v) by apply list_elem_of_here.
    rewrite length_app. cbn. lia.
  - intros u' v' Hin. apply Hlt. by apply list_elem_of_further.
  - intros u' v' Hin. rewrite edge_ref_add_edge.
    rewrite decide_False; [apply Hfresh; by apply list_elem_of_further|].
    intros [[-> ->]|[-> ->]]; [done|].
    pose proof (Hlt v u (list_elem_of_further _ _ _ Hin)).
    pose proof (Hlt u v (list_elem_of_here _ _)). lia.
Qed.

Lemma assign_weights_attrs {libm : Libm} pos es : forall g g',
  assign_weights pos es g = Ok g' -> length (attrs g') = length (attrs g).
Proof.
  induction es as [|[u v] es IH]; intros g g'; cbn [assign_weights].
  - by intros [= ->].
  - destruct (dist pos u v) as [w|]; cbn [mbind result_bind]; [|done].
    unfold set_weight. destruct (edge_data g u v) as [d|]; cbn [mbind result_bind]; [|done].
    intros Hrun. rewrite (IH _ _ Hrun). cbn [attrs]. by rewrite length_insert.
Qed.

(** X17: the graph that [G] returns holds one attribute dict per pair of
    locations: [num_bins * (num_bins - 1) / 2] in all. *)
Theorem G_edge_count {libm : Libm} (num_bins : nat) (pos : gmap nat (list float)) (g : Graph) :
  G num_bins pos = Ok g ->
  2 * length (attrs g) = num_bins * (num_bins - 1).
Proof.
  intros HG.
  assert (Hlen : length (attrs g) = length (combinations num_bins)).
  { rewrite (assign_weights_attrs _ _ _ _ HG). unfold complete_graph.
    rewrite attrs_foldl_add_edge.
    - by rewrite (proj1 (empty_graph_spec num_bins)).
    - apply NoDup_combinations.
    - intros u v Hin%elem_of_combinations. lia.
    - intros u v _. apply empty_graph_spec. }
  rewrite Hlen. unfold combinations.
  by rewrite (length_combinations_from num_bins num_bins 0).
Qed.

Lemma G_edge_count_witness : 2 * length (attrs unit_square_graph) = 5 * (5 - 1).
Proof.
  apply (@G_edge_count exact_libm 5 unit_square unit_square_graph). vm_compute. reflexivity.
Defined.

(** * Equal distances *)

Lemma finite_positive_sf s :
  PrimFloat.ltb PrimFloat.zero s = true -> PrimFloat.ltb s PrimFloat.infinity = true ->
  exists m e, Prim2SF s = S754_finite false m e.
Proof.
  rewrite !FloatAxioms.ltb_spec.
  change (Prim2SF PrimFloat.zero) with (S754_zero false).
  change (Prim2SF PrimFloat.infinity) with (S754_infinity false).
  unfold SFltb. destruct (Prim2SF s) as [[]|[]| |[] m e]; cbn; try done.
  intros _ _. by exists m, e.
Qed.

(** X18: when the dynamic route is exactly as long as the static one, and that
    distance is positive and finite, the saving is 0. *)
Theorem efficiency_saving_equal_distances (d : float) :
  PrimFloat.ltb PrimFloat.zero d = true -> PrimFloat.ltb d PrimFloat.infinity = true ->
  efficiency_saving d d = Ok PrimFloat.zero.
Proof.
  intros Hpos Hfin. destruct (finite_positive_sf d Hpos Hfin) as (m & e & Hd).
  unfold efficiency_saving, PyFloat.truediv.
  rewrite Hpos, (ltb_zero_eqb_zero _ Hpos). f_equal.
  assert (Hsub : PrimFloat.sub d d = PrimFloat.zero).
  { apply Prim2SF_inj. rewrite sub_spec, Hd. unfold SF64sub, SFsub.
    rewrite Z.sub_diag. reflexivity. }
  rewrite Hsub. apply Prim2SF_inj. rewrite div_spec, Hd.
  change (Prim2SF (PrimFloat.mul PrimFloat.zero 100%float)) with (S754_zero false).
  reflexivity.
Qed.

Lemma efficiency_saving_equal_distances_witness :
  efficiency_saving 441.5%float 441.5%float = Ok PrimFloat.zero.
Proof.
  apply (efficiency_saving_equal_distances 441.5%float); reflexivity.
Defined.
